(** Shallow embedding of the module-lifecycle engine of [src/server.py]
    (ai-mcp-server): cycle detection, readiness, operational critical
    path, project-state evaluation, status snapshot, stall diagnosis and the
    [tools/call] dispatch of the MCP endpoint. *)

From Stdlib Require Import Ascii String List Bool Arith Lia Relations Permutation ZArith Sorted.
From Stdlib Require SpecFloat.
Import ListNotations.
Open Scope string_scope.

(* ================================================================= *)
(** * Data model *)

(** The ontology as the engine reads it: [get_all_modules] yields the
    declared module ids, [get_dependencies] the [dependsOnModule] targets of
    any id. *)
Record Graph := mkGraph {
  modules : list string;          (* get_all_modules() *)
  deps : string -> list string    (* get_dependencies(module_name) *)
}.

(** The SQLite table [modules(module_name PRIMARY KEY, status)]:
    [get_db_status] returns [None] when no row exists. *)
Definition Store := string -> option string.

Definition get_db_status (st : Store) (m : string) : option string := st m.

(** [INSERT ... ON CONFLICT(module_name) DO UPDATE SET status=...]: an upsert. *)
Definition set_db_status (st : Store) (m s : string) : Store :=
  fun x => if String.eqb x m then Some s else st x.

(** [get_db_status(m) == s] (a Python comparison of [None] or a string). *)
Definition status_is (st : Store) (m s : string) : bool :=
  match get_db_status st m with
  | Some s' => String.eqb s' s
  | None => false
  end.

(** Membership in a Python list or set of strings. *)
Definition mem (x : string) (l : list string) : bool :=
  existsb (String.eqb x) l.

(** [set.add] and [set.remove] on a set of strings kept as a list. *)
Definition set_add (x : string) (s : list string) : list string :=
  if mem x s then s else x :: s.

Definition set_remove (x : string) (s : list string) : list string :=
  filter (fun y => negb (String.eqb y x)) s.

(** Keys of a dict built by a comprehension over a list: first occurrences,
    in insertion order. *)
Fixpoint dedup (l : list string) : list string :=
  match l with
  | [] => []
  | x :: r => x :: filter (fun y => negb (String.eqb y x)) (dedup r)
  end.

(* ================================================================= *)
(** * detect_cycles *)

(** [graph = {m: get_dependencies(m) for m in get_all_modules()}] and
    [graph.get(node, [])]. *)
Definition graph_get (G : Graph) (node : string) : list string :=
  if mem node (modules G) then deps G node else [].

(** The dependency relation of the graph [detect_cycles] builds: an edge
    from a declared module to each of its declared dependencies. *)
Definition dep_edge (G : Graph) (x y : string) : Prop :=
  In x (modules G) /\ In y (deps G x).

(** A non-empty closed walk of the dependency relation. *)
Definition cyclic (G : Graph) : Prop :=
  exists x, clos_trans string (dep_edge G) x x.

(** DFS state: the [visited] and [stack] sets. *)
Definition DfsState : Type := (list string * list string)%type.

(** [for neighbor in ...: if dfs(neighbor): return True], the state
    threaded through the calls; [rec] is the recursive [dfs]. *)
Fixpoint dfs_loop (rec : string -> DfsState -> option (bool * DfsState))
    (ns : list string) (s : DfsState) : option (bool * DfsState) :=
  match ns with
  | [] => Some (false, s)
  | n :: ns' =>
      match rec n s with
      | Some (true, s') => Some (true, s')
      | Some (false, s') => dfs_loop rec ns' s'
      | None => None
      end
  end.

(** The nested [dfs] of [detect_cycles].  The recursion is bounded by a
    fuel argument; [None] stands for running out of it (the bound chosen in
    [detect_cycles] is proved sufficient below). *)
Fixpoint dfs (G : Graph) (fuel : nat) (node : string) (s : DfsState)
    : option (bool * DfsState) :=
  match fuel with
  | O => None
  | S f =>
      let '(visited, stack) := s in
      if mem node stack then Some (true, s)
      else if mem node visited then Some (false, s)
      else
        match dfs_loop (dfs G f) (graph_get G node)
                (set_add node visited, set_add node stack) with
        | Some (true, s') => Some (true, s')
        | Some (false, (v', st')) => Some (false, (v', set_remove node st'))
        | None => None
        end
  end.

(** [any(dfs(node) for node in graph)], sharing [visited] and [stack]. *)
Fixpoint dfs_any (G : Graph) (fuel : nat) (ns : list string) (s : DfsState)
    : option bool :=
  match ns with
  | [] => Some false
  | n :: ns' =>
      match dfs G fuel n s with
      | Some (true, _) => Some true
      | Some (false, s') => dfs_any G fuel ns' s'
      | None => None
      end
  end.

(** Every id the traversal can reach: the declared modules and their
    dependencies (an undeclared id has no neighbours). *)
Definition universe (G : Graph) : list string :=
  modules G ++ flat_map (deps G) (modules G).

Definition dfs_fuel (G : Graph) : nat := S (length (universe G)).

Definition detect_cycles (G : Graph) : bool :=
  match dfs_any G (dfs_fuel G) (dedup (modules G)) ([], []) with
  | Some b => b
  | None => false
  end.

(* ================================================================= *)
(** * compute_next_steps *)

(** [for m in get_all_modules(): if get_db_status(m) != "pending": continue;
    if all(get_db_status(d) == "completed" for d in deps): ready.append(m)]. *)
Definition compute_next_steps (G : Graph) (st : Store) : list string :=
  filter (fun m => status_is st m "pending"
                   && forallb (fun d => status_is st d "completed") (deps G m))
    (modules G).

(* ================================================================= *)
(** * compute_operational_critical_path *)

(** [active_modules = [m for m in get_all_modules() if get_db_status(m) != "completed"]]. *)
Definition active_modules (G : Graph) (st : Store) : list string :=
  filter (fun m => negb (status_is st m "completed")) (modules G).

(** [graph.get(node, [])] after
    [for m in active_modules: for d in get_dependencies(m):
       if d in active_modules: graph[d].append(m)]:
    the dependents of [node], in the order they were appended. *)
Definition cp_succ (G : Graph) (st : Store) (node : string) : list string :=
  flat_map (fun m =>
      flat_map (fun d => if String.eqb d node && mem d (active_modules G st)
                         then [m] else []) (deps G m))
    (active_modules G st).

(** A [(length, path)] pair as [longest] returns it, and the [memo] dict. *)
Definition CPResult : Type := (nat * list string)%type.
Definition Memo : Type := list (string * CPResult).

Fixpoint memo_find (k : string) (memo : Memo) : option CPResult :=
  match memo with
  | [] => None
  | (k', r) :: rest => if String.eqb k' k then Some r else memo_find k rest
  end.

(** The loop shared by [longest] and the outer selection:
    [for n in ns: ln, path = longest(n); if ln > best_len: best = (ln, path)]. *)
Fixpoint best_of (rec : string -> Memo -> option (CPResult * Memo))
    (ns : list string) (best : CPResult) (memo : Memo) : option (CPResult * Memo) :=
  match ns with
  | [] => Some (best, memo)
  | n :: ns' =>
      match rec n memo with
      | Some (r, memo') =>
          best_of rec ns' (if Nat.ltb (fst best) (fst r) then r else best) memo'
      | None => None
      end
  end.

(** The nested [longest(node)]; [None] when the recursion does not bottom
    out within [fuel] nested calls. *)
Fixpoint longest (G : Graph) (st : Store) (fuel : nat) (node : string) (memo : Memo)
    : option (CPResult * Memo) :=
  match fuel with
  | O => None
  | S f =>
      match memo_find node memo with
      | Some r => Some (r, memo)
      | None =>
          match cp_succ G st node with
          | [] => Some ((1, [node]), (node, (1, [node])) :: memo)
          | ns =>
              match best_of (longest G st f) ns (0, []) memo with
              | Some ((bl, bp), memo') =>
                  Some ((S bl, node :: bp), (node, (S bl, node :: bp)) :: memo')
              | None => None
              end
          end
      end
  end.

(** [best = (0, []); for n in active_modules: ...; return best]. *)
Definition cp_run (fuel : nat) (G : Graph) (st : Store) : option CPResult :=
  match best_of (longest G st fuel) (active_modules G st) (0, []) [] with
  | Some (b, _) => Some b
  | None => None
  end.

Definition compute_operational_critical_path (G : Graph) (st : Store) : option CPResult :=
  cp_run (S (length (active_modules G st))) G st.

(* ================================================================= *)
(** * evaluate_project_state *)

Definition evaluate_project_state (G : Graph) (st : Store) : string :=
  if detect_cycles G then "blocked_by_cycle"
  else
    let mods := modules G in
    if match mods with
       | [] => false
       | _ => forallb (fun m => status_is st m "completed") mods
       end
    then "completed"
    else match compute_next_steps G st with
         | _ :: _ => "active"
         | [] => "stalled"
         end.

(* ================================================================= *)
(** * get_status_snapshot *)

(** [sorted] on strings: insertion sort by [String.leb]. *)
Fixpoint insert_sorted (x : string) (l : list string) : list string :=
  match l with
  | [] => [x]
  | y :: r => if String.leb x y then x :: y :: r else y :: insert_sorted x r
  end.

Definition sort_strings (l : list string) : list string :=
  fold_right insert_sorted [] l.

(** [st if st is not None else "unset"]. *)
Definition status_str (st : Store) (m : string) : string :=
  match get_db_status st m with
  | Some s => s
  | None => "unset"
  end.

Definition get_status_snapshot (G : Graph) (st : Store) : list (string * string) :=
  map (fun m => (m, status_str st m)) (sort_strings (modules G)).

(* ================================================================= *)
(** * diagnose_stall *)

(** The dict [diagnose_stall] returns; [d_ready] is the [ready_modules] key,
    present only in the [active] and [stalled] reports. *)
Record Diagnosis := mkDiagnosis {
  d_state : string;
  d_summary : string;
  d_snapshot : list (string * string);
  d_ready : option (list string);
  d_blocked : list (string * list (string * string));
  d_recs : list string
}.

(** [blockers] of a pending module: its dependencies whose status is not
    ["completed"], each with its status or ["unset"]. *)
Definition blockers_of (G : Graph) (st : Store) (m : string) : list (string * string) :=
  map (fun d => (d, status_str st d))
    (filter (fun d => negb (status_is st d "completed")) (deps G m)).

(** [blocked_info]: the pending modules with a non-empty blocker list. *)
Definition blocked_info (G : Graph) (st : Store) (pending : list string)
    : list (string * list (string * string)) :=
  flat_map (fun m => match blockers_of G st m with
                     | [] => []
                     | bs => [(m, bs)]
                     end) pending.

Definition key_eqb (a b : string * string) : bool :=
  String.eqb (fst a) (fst b) && String.eqb (snd a) (snd b).

(** [blocker_counts[key] = blocker_counts.get(key, 0) + 1] on an
    insertion-ordered dict. *)
Fixpoint bump (k : string * string) (c : list ((string * string) * nat))
    : list ((string * string) * nat) :=
  match c with
  | [] => [(k, 1)]
  | (k', n) :: r => if key_eqb k' k then (k', S n) :: r else (k', n) :: bump k r
  end.

Definition blocker_counts (blocked : list (string * list (string * string)))
    : list ((string * string) * nat) :=
  fold_left (fun c item => fold_left (fun c b => bump b c) (snd item) c) blocked [].

(** [sorted(items, key=count, reverse=True)]: stable, descending. *)
Fixpoint insert_desc (x : (string * string) * nat) (l : list ((string * string) * nat))
    : list ((string * string) * nat) :=
  match l with
  | [] => [x]
  | y :: r => if Nat.ltb (snd y) (snd x) then x :: y :: r else y :: insert_desc x r
  end.

Definition sort_desc (l : list ((string * string) * nat)) : list ((string * string) * nat) :=
  fold_left (fun acc x => insert_desc x acc) l [].

(** Decimal rendering of a count, as in an f-string. *)
Fixpoint digits (fuel n : nat) (acc : string) : string :=
  match fuel with
  | O => acc
  | S f =>
      let acc' := String (ascii_of_nat (48 + n mod 10)) acc in
      if Nat.ltb n 10 then acc' else digits f (n / 10) acc'
  end.

Definition string_of_nat (n : nat) : string := digits (S n) n "".

Definition rec_line (x : (string * string) * nat) : string :=
  let '((md, s), cnt) := x in
  if String.eqb s "unset"
  then "Set status for '" ++ md ++ "' (currently unset) to pending or completed."
  else "'" ++ md ++ "' is blocking " ++ string_of_nat cnt
       ++ " module(s). Current status: " ++ s
       ++ ". Consider completing it or adjusting dependencies.".

Definition diagnose_stall (G : Graph) (st : Store) : Diagnosis :=
  let state := evaluate_project_state G st in
  let mods := modules G in
  match mods with
  | [] =>
      mkDiagnosis state "No modules found in ontology." [] None []
        ["Verify ontology has :Module instances."]
  | _ =>
      if detect_cycles G then
        mkDiagnosis "blocked_by_cycle" "Circular dependency detected."
          (get_status_snapshot G st) None []
          ["Run detect_dependency_cycles and break the loop by removing/adjusting one dependency edge."]
      else
        let pending := filter (fun m => status_is st m "pending") mods in
        match pending with
        | [] =>
            let unset := filter (fun m => match get_db_status st m with
                                          | None => true
                                          | Some _ => false
                                          end) mods in
            let recs :=
              app match unset with
                  | [] => []
                  | _ => ["Some module statuses are unset in DB. Set them to pending/completed/inProgress."]
                  end
                ["If you expected completion, ensure all modules are marked completed in DB."] in
            mkDiagnosis state
              "No pending modules, but project is not completed. Likely unset statuses."
              (get_status_snapshot G st) None [] recs
        | _ =>
            match compute_next_steps G st with
            | (_ :: _) as ready =>
                mkDiagnosis "active" "Project is active. Executable modules exist."
                  (get_status_snapshot G st) (Some ready) []
                  ["Execute one of the ready modules and update its status to completed."]
            | [] =>
                let blocked := blocked_info G st pending in
                let top := sort_desc (blocker_counts blocked) in
                let recs :=
                  match map rec_line (firstn 5 top) with
                  | [] => ["Review dependency edges; stalled state detected but no explicit blockers found."]
                  | rs => rs
                  end in
                mkDiagnosis "stalled"
                  "Pending modules exist but none are executable (dependencies not satisfied)."
                  (get_status_snapshot G st) (Some []) blocked recs
            end
        end
  end.

(* ================================================================= *)
(** * The [tools/call] branch of the MCP endpoint *)

(** The payload of [ok] / [ok_obj] / [err]. *)
Inductive ToolResult :=
| TextResult (s : string)
| ReadyResult (l : list string)
| BoolResult (b : bool)
| PathResult (r : CPResult)
| SnapshotResult (l : list (string * string))
| DiagResult (d : Diagnosis)
| ErrorResult (msg : string).

(** [args.get("module")], [args.get("status")]. *)
Record ToolArgs := mkArgs { arg_module : option string; arg_status : option string }.

(** Python truthiness of an optional string argument. *)
Definition truthy (o : option string) : bool :=
  match o with
  | Some s => negb (String.eqb s "")
  | None => false
  end.

(** One [tools/call] request on the current snapshot: the response payload
    and the store afterwards; [None] when the handler never returns. *)
Definition call_tool (tool : string) (args : ToolArgs) (G : Graph) (st : Store)
    : option (ToolResult * Store) :=
  if String.eqb tool "update_module_status" then
    match arg_module args, arg_status args with
    | Some m, Some s =>
        if truthy (Some m) && truthy (Some s)
        then Some (TextResult "Status updated", set_db_status st m s)
        else Some (ErrorResult "Missing required arguments: module, status", st)
    | _, _ => Some (ErrorResult "Missing required arguments: module, status", st)
    end
  else if String.eqb tool "get_project_next_steps" then
    Some (ReadyResult (compute_next_steps G st), st)
  else if String.eqb tool "detect_dependency_cycles" then
    Some (BoolResult (detect_cycles G), st)
  else if String.eqb tool "compute_operational_critical_path" then
    match compute_operational_critical_path G st with
    | Some r => Some (PathResult r, st)
    | None => None
    end
  else if String.eqb tool "evaluate_project_state" then
    Some (TextResult (evaluate_project_state G st), st)
  else if String.eqb tool "get_module_statuses" then
    Some (SnapshotResult (get_status_snapshot G st), st)
  else if String.eqb tool "diagnose_stall" then
    Some (DiagResult (diagnose_stall G st), st)
  else Some (ErrorResult ("Unknown tool: " ++ tool), st).

(* ================================================================= *)
(** * The MCP endpoint *)

(** [MCP_PROTOCOL_VERSION]. *)
Definition MCP_PROTOCOL_VERSION : string := "2025-03-26".

(** One entry of the [tools/list] result: its [name], [description] and the
    [required] list of its [inputSchema] (empty where the schema has none). *)
Record ToolSpec := mkToolSpec {
  ts_name : string;
  ts_description : string;
  ts_required : list string
}.

Definition tools_list : list ToolSpec :=
  [mkToolSpec "update_module_status"
     "Update module status in SQLite (pending/completed/inProgress)."
     ["module"; "status"];
   mkToolSpec "get_project_next_steps"
     "Return executable modules (pending + deps completed)." [];
   mkToolSpec "detect_dependency_cycles"
     "Return True/False if circular dependencies exist." [];
   mkToolSpec "compute_operational_critical_path"
     "Compute strict operational critical path (dependency-first, excludes completed)." [];
   mkToolSpec "evaluate_project_state"
     "Return lifecycle state: completed/active/stalled/blocked_by_cycle." [];
   mkToolSpec "get_module_statuses"
     "List all modules and their persisted statuses from SQLite." [];
   mkToolSpec "diagnose_stall"
     "Full diagnosis for stalled/active states: blockers, ready modules, recommendations." []].

(** The JSON-RPC replies of [mcp]: the [initialize] result, the [tools/list]
    result, the payload of a [tools/call], and the [-32601] error. *)
Inductive McpReply :=
| InitReply (protocol_version server_name server_version : string)
| ToolsReply (tools : list ToolSpec)
| CallReply (r : ToolResult)
| RpcError (code : Z) (message : string).

(** [mcp(request)] on [body.get("method")] and, for [tools/call],
    [params.get("name")] and its arguments.  A missing name is [None], which
    no tool name equals and which the f-string renders as ["None"]. *)
Definition mcp (method : option string) (name : option string) (args : ToolArgs)
    (G : Graph) (st : Store) : option (McpReply * Store) :=
  match method with
  | Some meth =>
      if String.eqb meth "initialize" then
        Some (InitReply MCP_PROTOCOL_VERSION "ai-mcp-server" "10.0.0", st)
      else if String.eqb meth "tools/list" then
        Some (ToolsReply tools_list, st)
      else if String.eqb meth "tools/call" then
        let tool := match name with Some t => t | None => "None" end in
        match call_tool tool args G st with
        | Some (r, st') => Some (CallReply r, st')
        | None => None
        end
      else Some (RpcError (-32601)%Z "Method not found", st)
  | None => Some (RpcError (-32601)%Z "Method not found", st)
  end.

(* ================================================================= *)
(** * quality/schema.py *)

(** [ResearchProposalSchema["required_fields"]]. *)
Definition schema_required_fields : list string :=
  ["title"; "research_question"; "theoretical_background"; "methodology_type";
   "research_design"; "sample"; "data_collection"; "analysis_plan";
   "expected_contribution"; "author_role"; "submission_target"].

(** [ResearchProposalSchema["critical_fields"]]. *)
Definition schema_critical_fields : list string :=
  ["research_question"; "methodology_type"; "analysis_plan"].

(** IEEE-754 binary64, the Python [float]. *)
Definition f64_of_nat (n : nat) : SpecFloat.spec_float :=
  SpecFloat.binary_normalize 53 1024 (Z.of_nat n) 0 false.
Definition f64_sub := SpecFloat.SFsub 53 1024.
Definition f64_div := SpecFloat.SFdiv 53 1024.
Definition f64_one : SpecFloat.spec_float := f64_of_nat 1.

(** [ResearchProposalSchema["threshold"]]: the literal [0.95], the double
    nearest to 95/100. *)
Definition schema_threshold : SpecFloat.spec_float := f64_div (f64_of_nat 95) (f64_of_nat 100).

(* ================================================================= *)
(** * quality/structural_validator.py *)

(** The values a proposal dict holds, with Python truthiness. *)
#[warnings="-register-all"]
Inductive PyValue :=
| PyNone
| PyBool (b : bool)
| PyInt (z : Z)
| PyFloat (f : SpecFloat.spec_float)
| PyStr (s : string)
| PyList (l : list PyValue)
| PyDict (l : list (string * PyValue)).

Definition py_truthy (v : PyValue) : bool :=
  match v with
  | PyNone => false
  | PyBool b => b
  | PyInt z => negb (Z.eqb z 0)
  | PyFloat (SpecFloat.S754_zero _) => false
  | PyFloat _ => true
  | PyStr s => negb (String.eqb s "")
  | PyList l => match l with [] => false | _ => true end
  | PyDict l => match l with [] => false | _ => true end
  end.

(** The proposal dict: [None] when the key is absent. *)
Definition Proposal := string -> option PyValue.

(** [field not in proposal or not proposal[field]]. *)
Definition field_missing (p : Proposal) (field : string) : bool :=
  match p field with
  | None => true
  | Some v => negb (py_truthy v)
  end.

(** A number as [max(score, 0)] may leave it: the float, or the int [0]. *)
Inductive PyNum :=
| NumFloat (f : SpecFloat.spec_float)
| NumInt (z : Z).

(** [max(x, 0)]: [x] unless [0 > x]. *)
Definition py_max_zero (x : SpecFloat.spec_float) : PyNum :=
  if SpecFloat.SFltb x (SpecFloat.S754_zero false) then NumInt 0 else NumFloat x.

(** The [result] dict. *)
Record StructuralResult := mkStructuralResult {
  missing_fields : list string;
  hard_block : bool;
  structural_score : PyNum
}.

Definition structural_validate (proposal : Proposal) : StructuralResult :=
  let required := schema_required_fields in
  let critical := schema_critical_fields in
  let missing := fold_left (fun acc field =>
                   if field_missing proposal field then app acc [field] else acc)
                   required [] in
  let score := match missing with
               | [] => NumFloat f64_one
               | _ => py_max_zero (f64_sub f64_one
                        (f64_div (f64_of_nat (length missing)) (f64_of_nat (length required))))
               end in
  let hb := fold_left (fun hb field => if mem field missing then true else hb)
              critical false in
  mkStructuralResult missing hb score.

(* ================================================================= *)
(** * quality/recommendations.py *)

(** The [validation_result] dict as [generate_recommendations] reads it:
    [None] when the key is absent ([.get(key, [])]). *)
Record ValidationResult := mkValidationResult {
  vr_missing_fields : option (list string);
  vr_violations : option (list string)
}.

Definition get_or_nil (o : option (list string)) : list string :=
  match o with Some l => l | None => [] end.

Definition missing_rec (field : string) : string :=
  "Add missing required section: '" ++ field ++ "'.".

(** The [if/elif] chain on [violation.startswith(...)]. *)
Definition violation_rec (violation : string) : string :=
  if String.prefix "MIN_LENGTH" violation then
    "Expand the section to meet minimum length requirements and provide deeper theoretical or methodological detail."
  else if String.prefix "TYPE" violation then
    "Correct data types to match schema requirements (e.g., numeric fields must be integers)."
  else if String.prefix "ENUM" violation then
    "Ensure values match one of the allowed predefined options."
  else if String.prefix "REQUIRED_MISSING" violation then
    "Complete all mandatory structural components of the proposal."
  else "Review issue: " ++ violation ++ " and adjust proposal accordingly.".

Definition generate_recommendations (vr : ValidationResult) : list string :=
  let recs := fold_left (fun acc field => app acc [missing_rec field])
                (get_or_nil (vr_missing_fields vr)) [] in
  fold_left (fun acc v => app acc [violation_rec v]) (get_or_nil (vr_violations vr)) recs.

(** The dict [structural_validate] returns, read by [generate_recommendations]:
    it has a [missing_fields] key and no [violations] key. *)
Definition as_validation_result (r : StructuralResult) : ValidationResult :=
  mkValidationResult (Some (missing_fields r)) None.

(* ================================================================= *)
(** * Fixtures *)

(** A store given by an association list of rows. *)
Fixpoint store_of (rows : list (string * string)) : Store :=
  fun x => match rows with
           | [] => None
           | (k, v) :: r => if String.eqb x k then Some v else store_of r x
           end.

(** A graph given by its modules and their dependency lists. *)
Definition graph_of (adj : list (string * list string)) : Graph :=
  mkGraph (map fst adj)
    (fun x => match find (fun p => String.eqb (fst p) x) adj with
              | Some (_, ds) => ds
              | None => []
              end).

(** Fixtures: a two-cycle beside a free module; the chain C -> B -> A. *)
Definition fx_cycle_graph : Graph := graph_of [("A", ["B"]); ("B", ["A"]); ("C", [])].
Definition fx_all_pending : Store :=
  store_of [("A", "pending"); ("B", "pending"); ("C", "pending")].
Definition fx_chain_graph : Graph := graph_of [("A", []); ("B", ["A"]); ("C", ["B"])].
Definition fx_chain_store : Store :=
  store_of [("A", "completed"); ("B", "pending"); ("C", "pending")].

(** Fixtures: the same two free modules enumerated in both orders. *)
Definition fx_ab_graph : Graph := graph_of [("A", []); ("B", [])].
Definition fx_ba_graph : Graph := graph_of [("B", []); ("A", [])].

(** Fixtures: a proposal with every key set to a non-empty string, and the
    empty proposal. *)
Definition fx_full_proposal : Proposal := fun _ => Some (PyStr "draft").
Definition fx_empty_proposal : Proposal := fun _ => None.

(** Fixtures: [A] pending behind [B] in progress (stalled); the chain with
    no pending module and [C] without a row. *)
Definition fx_stalled_graph : Graph := graph_of [("A", ["B"]); ("B", [])].
Definition fx_stalled_store : Store := store_of [("A", "pending"); ("B", "inProgress")].
Definition fx_nopending_store : Store := store_of [("A", "completed"); ("B", "inProgress")].

(* ================================================================= *)
(** * Proof-side notions *)

Open Scope list_scope.


(** A finishing order of the DFS, newest first: each finished node's
    successors were finished before it. *)
Fixpoint topo (G : Graph) (F : list string) : Prop :=
  match F with
  | [] => True
  | x :: F' => ~ In x F' /\ (forall y, dep_edge G x y -> In y F') /\ topo G F'
  end.

(** The finished nodes (visited, off the stack) admit a finishing order. *)
Definition Inv (G : Graph) (V S : list string) : Prop :=
  exists F, (forall x, In x F <-> In x V /\ ~ In x S) /\ topo G F.

(** Nodes of the universe not yet visited: the measure bounding the DFS. *)
Definition unvisited_count (G : Graph) (V : list string) : nat :=
  length (filter (fun x => negb (mem x V)) (universe G)).

(** The operational subgraph: an edge from a dependency to its dependent,
    both not completed. *)
Definition cp_edge (G : Graph) (st : Store) (x y : string) : Prop :=
  In x (active_modules G st) /\ In y (active_modules G st) /\ In x (deps G y).

Definition cp_acyclic (G : Graph) (st : Store) : Prop :=
  forall x, ~ clos_trans string (cp_edge G st) x x.

(** [linked x rest]: [x :: rest] follows edges of the operational subgraph. *)
Fixpoint linked (G : Graph) (st : Store) (x : string) (rest : list string) : Prop :=
  match rest with
  | [] => True
  | y :: r => cp_edge G st x y /\ linked G st y r
  end.

(** A chain of the operational subgraph, from root prerequisite to final
    dependent. *)
Definition chain (G : Graph) (st : Store) (p : list string) : Prop :=
  match p with
  | [] => False
  | x :: r => In x (active_modules G st) /\ linked G st x r
  end.

(** Every chain starting at [n] has at most [k] nodes. *)
Definition bounded (G : Graph) (st : Store) (n : string) (k : nat) : Prop :=
  forall rest, linked G st n rest -> S (length rest) <= k.

(** [r] is a longest chain starting at [n], with its node count. *)
Definition good (G : Graph) (st : Store) (n : string) (r : CPResult) : Prop :=
  (exists rest, snd r = n :: rest /\ linked G st n rest) /\
  fst r = length (snd r) /\ bounded G st n (fst r).

Definition memo_ok (G : Graph) (st : Store) (memo : Memo) : Prop :=
  forall k r, memo_find k memo = Some r -> good G st k r.

(** After scanning [D] in [best_of]: [b] is the best answer of the first
    node [n0] of [D] reaching the maximum. *)
Definition BInv (G : Graph) (st : Store) (D : list string) (b : CPResult) : Prop :=
  (D = [] /\ b = (0, [])) \/
  (exists pre n0 post, D = pre ++ n0 :: post /\ good G st n0 b /\
     (forall n, In n pre -> forall rest, linked G st n rest -> S (length rest) < fst b) /\
     (forall n, In n D -> bounded G st n (fst b))).

(** Two stores agree on every id the engine reads: the declared modules and
    their declared dependencies. *)
Definition agree (G : Graph) (st1 st2 : Store) : Prop :=
  forall y, (In y (modules G) \/ exists m, In m (modules G) /\ In y (deps G m)) ->
            get_db_status st1 y = get_db_status st2 y.

(** The score [structural_validate] computes from the number of missing
    fields, and the float a number holds ([nan] for an int). *)
Definition score_of_count (k : nat) : PyNum :=
  match k with
  | O => NumFloat f64_one
  | _ => py_max_zero (f64_sub f64_one
           (f64_div (f64_of_nat k) (f64_of_nat (length schema_required_fields))))
  end.

Definition num_float (n : PyNum) : SpecFloat.spec_float :=
  match n with
  | NumFloat x => x
  | NumInt _ => SpecFloat.S754_nan
  end.

(* ================================================================= *)
(** * Proofs: strings, sets and lists *)

Lemma mem_In x l : mem x l = true <-> In x l.
Proof.
  unfold mem. rewrite existsb_exists. split.
  - intros (y & Hy & E). apply String.eqb_eq in E. subst. exact Hy.
  - intros H. exists x. split; [exact H | apply String.eqb_refl].
Qed.

Lemma mem_false x l : mem x l = false <-> ~ In x l.
Proof.
  rewrite <- mem_In. destruct (mem x l); split; congruence.
Qed.

Lemma set_remove_In x y l : In y (set_remove x l) <-> In y l /\ y <> x.
Proof.
  unfold set_remove. rewrite filter_In, negb_true_iff, String.eqb_neq. tauto.
Qed.

Lemma filter_keep {A} (f : A -> bool) l :
  (forall x, In x l -> f x = true) -> filter f l = l.
Proof.
  induction l as [|a l IH]; simpl; intros H; auto.
  rewrite (H a (or_introl eq_refl)). f_equal. apply IH. auto.
Qed.

Lemma set_remove_cons_fresh x l : ~ In x l -> set_remove x (x :: l) = l.
Proof.
  intros H. unfold set_remove. simpl. rewrite String.eqb_refl. simpl.
  apply filter_keep. intros y Hy. apply negb_true_iff, String.eqb_neq.
  intros ->. contradiction.
Qed.

Lemma dedup_In x l : In x (dedup l) <-> In x l.
Proof.
  induction l as [|a l IH]; simpl; [tauto|].
  rewrite filter_In, IH, negb_true_iff, String.eqb_neq.
  destruct (string_dec a x); intuition.
Qed.

Lemma filter_length_mono {A} (f g : A -> bool) l :
  (forall x, f x = true -> g x = true) ->
  length (filter f l) <= length (filter g l).
Proof.
  intros H. induction l as [|a l IH]; simpl; auto.
  destruct (f a) eqn:Ef; [rewrite (H a Ef); simpl; lia|].
  destruct (g a); simpl; lia.
Qed.

Lemma filter_length_lt {A} (f g : A -> bool) l n :
  (forall x, f x = true -> g x = true) -> In n l -> f n = false -> g n = true ->
  length (filter f l) < length (filter g l).
Proof.
  intros H. induction l as [|a l IH]; simpl; intros Hn Hf Hg; [contradiction|].
  destruct Hn as [<-|Hn].
  - rewrite Hf, Hg. simpl. pose proof (filter_length_mono f g l H). lia.
  - specialize (IH Hn Hf Hg).
    destruct (f a) eqn:Ef; [rewrite (H a Ef); simpl; lia|].
    destruct (g a); simpl; lia.
Qed.

Lemma filter_length_le {A} (f : A -> bool) l : length (filter f l) <= length l.
Proof.
  induction l as [|a l IH]; simpl; auto. destruct (f a); simpl; lia.
Qed.

(* ================================================================= *)
(** * Proofs: detect_cycles *)

Lemma graph_get_edge G x y : In y (graph_get G x) <-> dep_edge G x y.
Proof.
  unfold graph_get, dep_edge. destruct (mem x (modules G)) eqn:E.
  - apply mem_In in E. tauto.
  - apply mem_false in E. simpl. tauto.
Qed.

Lemma universe_module G m : In m (modules G) -> In m (universe G).
Proof. intros H. unfold universe. apply in_or_app. left. exact H. Qed.

Lemma universe_edge G x y : In y (graph_get G x) -> In y (universe G).
Proof.
  rewrite graph_get_edge. intros [Hx Hy]. unfold universe.
  apply in_or_app. right. apply in_flat_map. exists x. auto.
Qed.

Lemma count_mono G V V' : incl V V' -> unvisited_count G V' <= unvisited_count G V.
Proof.
  intros H. apply filter_length_mono. intros x.
  rewrite !negb_true_iff, !mem_false. auto.
Qed.

Lemma count_add G n V :
  In n (universe G) -> ~ In n V -> unvisited_count G (n :: V) < unvisited_count G V.
Proof.
  intros Hu Hv. apply filter_length_lt with n; auto.
  - intros x. rewrite !negb_true_iff, !mem_false. simpl. tauto.
  - apply negb_false_iff, mem_In. left. reflexivity.
  - apply negb_true_iff, mem_false. exact Hv.
Qed.

Lemma topo_step G F : topo G F -> forall x y, In x F -> dep_edge G x y -> In y F.
Proof.
  induction F as [|a F IH]; simpl; intros HT x y Hx He; [contradiction|].
  destruct HT as (_ & Hs & Ht). right.
  destruct Hx as [<-|Hx]; [apply Hs; exact He | eapply IH; eauto].
Qed.

Lemma topo_reach G F : topo G F ->
  forall x z, clos_trans string (dep_edge G) x z -> In x F -> In z F.
Proof.
  intros HT x z H. induction H; eauto using topo_step.
Qed.

Lemma topo_acyclic G F : topo G F ->
  forall x, In x F -> ~ clos_trans string (dep_edge G) x x.
Proof.
  induction F as [|a F IH]; simpl; intros HT x Hx Hc; [contradiction|].
  destruct HT as (Hn & Hs & Ht). destruct Hx as [<-|Hx].
  - apply clos_trans_t1n in Hc. inversion Hc as [y He | y z He Hr]; subst.
    + apply Hn, Hs. exact He.
    + apply clos_t1n_trans in Hr. apply Hn.
      eapply topo_reach; eauto.
  - eapply IH; eauto.
Qed.

(** Postcondition of a [False] answer: the stack is restored, [visited]
    grows, the node is finished and the finishing-order invariant holds. *)
Lemma dfs_loop_false G (rec : string -> DfsState -> option (bool * DfsState))
  (Hrec : forall n V S V' S', rec n (V, S) = Some (false, (V', S')) ->
          S' = S /\ incl V V' /\ In n V' /\ ~ In n S /\ (Inv G V S -> Inv G V' S')) :
  forall ns V S V' S', dfs_loop rec ns (V, S) = Some (false, (V', S')) ->
  S' = S /\ incl V V' /\ (forall n, In n ns -> In n V' /\ ~ In n S) /\
  (Inv G V S -> Inv G V' S').
Proof.
  induction ns as [|n ns IH]; simpl; intros V S V' S' H.
  - inversion H; subst. split; [reflexivity|]. split; [apply incl_refl|].
    split; [intros ? []| auto].
  - destruct (rec n (V, S)) as [[b [V1 S1]]|] eqn:E; try discriminate.
    destruct b; try discriminate.
    destruct (Hrec _ _ _ _ _ E) as (-> & Hi1 & Hn1 & HnS & HI1).
    destruct (IH _ _ _ _ H) as (-> & Hi2 & Hall & HI2).
    split; [reflexivity|]. split; [eapply incl_tran; eauto|].
    split; [|auto].
    intros m [<-|Hm]; [split; auto | apply Hall; exact Hm].
Qed.

Lemma dfs_false G f : forall n V S V' S',
  dfs G f n (V, S) = Some (false, (V', S')) ->
  S' = S /\ incl V V' /\ In n V' /\ ~ In n S /\ (Inv G V S -> Inv G V' S').
Proof.
  induction f as [|f IH]; intros n V S V' S' H; simpl in H; [discriminate|].
  destruct (mem n S) eqn:ES; [discriminate|].
  assert (HS : ~ In n S) by (apply mem_false; exact ES).
  destruct (mem n V) eqn:EV.
  - inversion H; subst. apply mem_In in EV. repeat split; auto using incl_refl.
  - assert (HV : ~ In n V) by (apply mem_false; exact EV).
    unfold set_add in H. rewrite ES, EV in H.
    destruct (dfs_loop (dfs G f) (graph_get G n) (n :: V, n :: S))
      as [[b [V2 S2]]|] eqn:EL; try discriminate.
    destruct b; try discriminate. inversion H; subst V' S'; clear H.
    destruct (dfs_loop_false G (dfs G f) IH _ _ _ _ _ EL) as (-> & Hi & Hall & HI).
    rewrite set_remove_cons_fresh by exact HS.
    repeat split; auto.
    + intros x Hx. apply Hi. right. exact Hx.
    + apply Hi. left. reflexivity.
    + intros (F & HF & HT).
      assert (HI0 : Inv G (n :: V) (n :: S)).
      { exists F. split; [|exact HT]. intros x. rewrite HF. simpl.
        split.
        - intros [Hx Hnx]. split; [right; exact Hx|].
          intros [<-|Hx']; [contradiction | contradiction].
        - intros [[<-|Hx] Hnx]; [exfalso; apply Hnx; left; reflexivity|].
          split; [exact Hx|]. intros Hx'. apply Hnx. right. exact Hx'. }
      destruct (HI HI0) as (F2 & HF2 & HT2).
      exists (n :: F2). split.
      * intros x. simpl. rewrite HF2. split.
        -- intros [<-|[Hx Hnx]].
           ++ split; [apply Hi; left; reflexivity | exact HS].
           ++ split; [exact Hx|]. intros Hx'. apply Hnx. right. exact Hx'.
        -- intros [Hx Hnx]. destruct (string_dec n x) as [<-|Hne]; [left; reflexivity|].
           right. split; [exact Hx|]. intros [<-|Hx']; [apply Hne; reflexivity | contradiction].
      * simpl. split; [|split; [|exact HT2]].
        -- rewrite HF2. intros [_ Hn]. apply Hn. left. reflexivity.
        -- intros y Hy. apply graph_get_edge in Hy.
           destruct (Hall y Hy) as [Hy1 Hy2]. apply HF2. auto.
Qed.

(** A [True] answer comes from a node met again on the stack: a closed walk. *)
Lemma dfs_loop_true G (rec : string -> DfsState -> option (bool * DfsState))
  (Hfalse : forall n V S V' S', rec n (V, S) = Some (false, (V', S')) -> S' = S)
  (Htrue : forall n V S s', rec n (V, S) = Some (true, s') ->
           (forall y, In y S -> clos_trans string (dep_edge G) y n) -> cyclic G) :
  forall ns V S s', dfs_loop rec ns (V, S) = Some (true, s') ->
  (forall n, In n ns -> forall y, In y S -> clos_trans string (dep_edge G) y n) ->
  cyclic G.
Proof.
  induction ns as [|n ns IH]; simpl; intros V S s' H Hpre; [discriminate|].
  destruct (rec n (V, S)) as [[b [V1 S1]]|] eqn:E; try discriminate.
  destruct b.
  - eapply Htrue; [exact E|]. apply Hpre. left. reflexivity.
  - pose proof (Hfalse _ _ _ _ _ E) as ->.
    eapply IH; [exact H|]. intros m Hm. apply Hpre. right. exact Hm.
Qed.

Lemma dfs_true G f : forall n V S s',
  dfs G f n (V, S) = Some (true, s') ->
  (forall y, In y S -> clos_trans string (dep_edge G) y n) -> cyclic G.
Proof.
  induction f as [|f IH]; intros n V S s' H Hpre; simpl in H; [discriminate|].
  destruct (mem n S) eqn:ES.
  - apply mem_In in ES. exists n. apply Hpre. exact ES.
  - destruct (mem n V) eqn:EV; [discriminate|].
    unfold set_add in H. rewrite ES, EV in H.
    destruct (dfs_loop (dfs G f) (graph_get G n) (n :: V, n :: S))
      as [[b s2]|] eqn:EL; try discriminate.
    destruct b; [|destruct s2; discriminate].
    apply (dfs_loop_true G (dfs G f)) with (graph_get G n) (n :: V) (n :: S) s2.
    + intros m V0 S0 V1 S1 E. exact (proj1 (dfs_false G f _ _ _ _ _ E)).
    + exact IH.
    + exact EL.
    + intros m Hm y [<-|Hy].
      * apply t_step. apply graph_get_edge. exact Hm.
      * apply t_trans with n; [apply Hpre; exact Hy|].
        apply t_step. apply graph_get_edge. exact Hm.
Qed.

Lemma dfs_some G f : forall n V S,
  In n (universe G) -> unvisited_count G V < f -> exists r, dfs G f n (V, S) = Some r.
Proof.
  induction f as [|f IH]; intros n V S Hu Hc; [lia|]. simpl.
  destruct (mem n S) eqn:ES; [eauto|].
  destruct (mem n V) eqn:EV; [eauto|].
  unfold set_add. rewrite ES, EV.
  assert (Hloop : forall ns V' S', (forall m, In m ns -> In m (universe G)) ->
            unvisited_count G V' < f ->
            exists r, dfs_loop (dfs G f) ns (V', S') = Some r).
  { induction ns as [|m ns IHns]; simpl; intros V' S' Hns Hc'; [eauto|].
    destruct (IH m V' S') as [[b [V1 S1]] E]; [apply Hns; left; reflexivity | exact Hc'|].
    rewrite E. destruct b; [eauto|].
    destruct (dfs_false G f _ _ _ _ _ E) as (_ & Hi & _).
    apply IHns; [intros x Hx; apply Hns; right; exact Hx|].
    eapply Nat.le_lt_trans; [apply count_mono; exact Hi | exact Hc']. }
  destruct (Hloop (graph_get G n) (n :: V) (n :: S)) as [[[|] [v s]] E].
  - intros m Hm. eapply universe_edge; eauto.
  - pose proof (count_add G n V Hu (proj1 (mem_false _ _) EV)). lia.
  - rewrite E. eauto.
  - rewrite E. eauto.
Qed.

Lemma dfs_any_true G f : forall ns V,
  dfs_any G f ns (V, []) = Some true -> cyclic G.
Proof.
  induction ns as [|n ns IH]; simpl; intros V H; [discriminate|].
  destruct (dfs G f n (V, [])) as [[b [V1 S1]]|] eqn:E; try discriminate.
  destruct b.
  - eapply dfs_true; [exact E|]. intros y [].
  - destruct (dfs_false G f _ _ _ _ _ E) as (-> & _). eapply IH. exact H.
Qed.

Lemma dfs_any_false G f : forall ns V,
  dfs_any G f ns (V, []) = Some false -> Inv G V [] ->
  exists V', incl V V' /\ Inv G V' [] /\ (forall n, In n ns -> In n V').
Proof.
  induction ns as [|n ns IH]; simpl; intros V H HI.
  - exists V. split; [apply incl_refl|]. split; [exact HI | intros ? []].
  - destruct (dfs G f n (V, [])) as [[b [V1 S1]]|] eqn:E; try discriminate.
    destruct b; try discriminate.
    destruct (dfs_false G f _ _ _ _ _ E) as (-> & Hi & Hn & _ & HI1).
    destruct (IH V1 H (HI1 HI)) as (V' & Hi' & HI' & Hall).
    exists V'. split; [eapply incl_tran; eauto|]. split; [exact HI'|].
    intros m [<-|Hm]; [apply Hi'; exact Hn | apply Hall; exact Hm].
Qed.

Lemma dfs_any_some G f : forall ns V,
  (forall n, In n ns -> In n (universe G)) -> unvisited_count G V < f ->
  exists b, dfs_any G f ns (V, []) = Some b.
Proof.
  induction ns as [|n ns IH]; simpl; intros V Hns Hc; [eauto|].
  destruct (dfs_some G f n V [] (Hns n (or_introl eq_refl)) Hc) as [[b [V1 S1]] E].
  rewrite E. destruct b; [eauto|].
  destruct (dfs_false G f _ _ _ _ _ E) as (-> & Hi & _).
  apply IH; [intros x Hx; apply Hns; right; exact Hx|].
  eapply Nat.le_lt_trans; [apply count_mono; exact Hi | exact Hc].
Qed.

(** [detect_cycles] decides the existence of a non-empty closed walk. *)
Lemma detect_cycles_correct G : detect_cycles G = true <-> cyclic G.
Proof.
  unfold detect_cycles. split.
  - destruct (dfs_any G (dfs_fuel G) (dedup (modules G)) ([], [])) as [b|] eqn:E;
      [intros ->; eapply dfs_any_true; exact E | discriminate].
  - intros [x Hx].
    destruct (dfs_any_some G (dfs_fuel G) (dedup (modules G)) []) as [b E].
    + intros n Hn. apply universe_module. apply dedup_In. exact Hn.
    + unfold dfs_fuel, unvisited_count. pose proof (filter_length_le
        (fun x => negb (mem x [])) (universe G)). lia.
    + rewrite E. destruct b; [reflexivity|exfalso].
      destruct (dfs_any_false G _ _ [] E) as (V' & _ & (F & HF & HT) & Hall).
      { exists []. split; [|exact I]. simpl. tauto. }
      assert (Hm : In x (modules G)).
      { apply clos_trans_t1n in Hx. inversion Hx as [y He | y z He _]; exact (proj1 He). }
      apply (topo_acyclic G F HT x); [|exact Hx].
      apply HF. split; [|intros []]. apply Hall. apply dedup_In. exact Hm.
Qed.

(* ================================================================= *)
(** * Proofs: readiness and lifecycle state *)

Lemma status_is_spec st m s : status_is st m s = true <-> get_db_status st m = Some s.
Proof.
  unfold status_is. destruct (get_db_status st m) as [s'|].
  - rewrite String.eqb_eq. split; [intros ->; reflexivity | intros H; inversion H; reflexivity].
  - split; discriminate.
Qed.

Lemma compute_next_steps_In G st m :
  In m (compute_next_steps G st) <->
  In m (modules G) /\ get_db_status st m = Some "pending" /\
  (forall d, In d (deps G m) -> get_db_status st d = Some "completed").
Proof.
  unfold compute_next_steps. rewrite filter_In, andb_true_iff, status_is_spec,
    forallb_forall.
  split; intros (H1 & H2 & H3); repeat split; auto;
    intros d Hd; apply status_is_spec; auto.
Qed.

Lemma cyclic_has_module G : cyclic G -> modules G <> [].
Proof.
  intros [x Hx] E. apply clos_trans_t1n in Hx.
  inversion Hx as [y He | y z He _]; destruct He as [Hm _]; rewrite E in Hm;
    destruct Hm.
Qed.

(** C4: [detect_cycles] is true exactly when the dependency relation of the
    graph (declared module to each declared dependency) has a non-empty
    closed walk; a module listing itself as a dependency is reported. *)
Theorem detect_cycles_iff_closed_walk (G : Graph) :
  (detect_cycles G = true <-> cyclic G) /\
  (forall m, In m (modules G) -> In m (deps G m) -> detect_cycles G = true).
Proof.
  split; [apply detect_cycles_correct|].
  intros m Hm Hd. apply detect_cycles_correct. exists m. apply t_step. split; assumption.
Qed.

(** C1: [evaluate_project_state] returns one of the four states, in the
    priority order cycle, all completed (non-empty module set), ready set
    non-empty, otherwise stalled. *)
Theorem evaluate_project_state_priority (G : Graph) (st : Store) :
  In (evaluate_project_state G st)
     ["blocked_by_cycle"; "completed"; "active"; "stalled"] /\
  (cyclic G -> evaluate_project_state G st = "blocked_by_cycle") /\
  (~ cyclic G -> modules G <> [] ->
   (forall m, In m (modules G) -> get_db_status st m = Some "completed") ->
   evaluate_project_state G st = "completed") /\
  (~ cyclic G ->
   ~ (modules G <> [] /\
      forall m, In m (modules G) -> get_db_status st m = Some "completed") ->
   compute_next_steps G st <> [] -> evaluate_project_state G st = "active") /\
  (~ cyclic G ->
   ~ (modules G <> [] /\
      forall m, In m (modules G) -> get_db_status st m = Some "completed") ->
   compute_next_steps G st = [] -> evaluate_project_state G st = "stalled").
Proof.
  pose proof (detect_cycles_correct G) as HD.
  assert (Hall : (match modules G with
                  | [] => false
                  | _ => forallb (fun m => status_is st m "completed") (modules G)
                  end = true) <->
                 (modules G <> [] /\
                  forall m, In m (modules G) -> get_db_status st m = Some "completed")).
  { destruct (modules G) as [|a l].
    - split; [discriminate | intros [H _]; contradiction].
    - rewrite forallb_forall. split.
      + intros H. split; [discriminate|]. intros m Hm. apply status_is_spec. auto.
      + intros [_ H] m Hm. apply status_is_spec. auto. }
  unfold evaluate_project_state.
  destruct (detect_cycles G) eqn:Ed.
  - split; [simpl; auto|]. split; [reflexivity|].
    split; [intros Hn; exfalso; apply Hn, HD; reflexivity|].
    split; intros Hn; exfalso; apply Hn, HD; reflexivity.
  - assert (Hnc : ~ cyclic G) by (intros Hc; apply HD in Hc; discriminate).
    cbv zeta.
    destruct (match modules G with
              | [] => false
              | _ => forallb (fun m => status_is st m "completed") (modules G)
              end) eqn:Ec.
    + split; [simpl; auto|]. split; [intros Hc; contradiction|].
      split; [reflexivity|].
      split; intros _ Hn; exfalso; apply Hn, Hall; reflexivity.
    + destruct (compute_next_steps G st) as [|r rs] eqn:Er.
      * split; [simpl; auto|]. split; [intros Hc; contradiction|].
        split; [intros _ H1 H2; exfalso; assert (Ht := proj2 Hall (conj H1 H2)); congruence|].
        split; [intros _ _ H; exfalso; apply H; reflexivity | reflexivity].
      * split; [simpl; auto|]. split; [intros Hc; contradiction|].
        split; [intros _ H1 H2; exfalso; assert (Ht := proj2 Hall (conj H1 H2)); congruence|].
        split; [reflexivity | intros _ _ H; discriminate].
Qed.

(** C5: a declared module is in [compute_next_steps] exactly when it is
    pending and all its declared dependencies are completed; a pending module
    without dependencies is included, one with an uncompleted or unset
    dependency is excluded. *)
Theorem compute_next_steps_spec (G : Graph) (st : Store) :
  (forall m, In m (compute_next_steps G st) <->
             In m (modules G) /\ get_db_status st m = Some "pending" /\
             (forall d, In d (deps G m) -> get_db_status st d = Some "completed")) /\
  (forall m, In m (modules G) -> get_db_status st m = Some "pending" ->
             deps G m = [] -> In m (compute_next_steps G st)) /\
  (forall m d, In d (deps G m) -> get_db_status st d <> Some "completed" ->
               ~ In m (compute_next_steps G st)).
Proof.
  split; [apply compute_next_steps_In|]. split.
  - intros m Hm Hp Hd. apply compute_next_steps_In.
    split; [exact Hm|]. split; [exact Hp|]. rewrite Hd. intros d [].
  - intros m d Hd Hn Hin. apply compute_next_steps_In in Hin.
    destruct Hin as (_ & _ & H). apply Hn, H, Hd.
Qed.

(** C10: with no declared modules, [evaluate_project_state] is ["stalled"]
    and [diagnose_stall] returns the ["No modules found in ontology."]
    report with an empty snapshot and an empty blocked list. *)
Theorem no_modules_report (G : Graph) (st : Store) (Hnil : modules G = []) :
  evaluate_project_state G st = "stalled" /\
  d_state (diagnose_stall G st) = "stalled" /\
  d_summary (diagnose_stall G st) = "No modules found in ontology." /\
  d_snapshot (diagnose_stall G st) = [] /\
  d_blocked (diagnose_stall G st) = [].
Proof.
  assert (He : evaluate_project_state G st = "stalled").
  { unfold evaluate_project_state, detect_cycles, compute_next_steps.
    rewrite Hnil. reflexivity. }
  unfold diagnose_stall. rewrite He, Hnil. simpl. repeat split.
Qed.

Lemma no_modules_report_witness :
  modules (graph_of []) = [] /\
  evaluate_project_state (graph_of []) (store_of []) = "stalled" /\
  d_summary (diagnose_stall (graph_of []) (store_of [])) = "No modules found in ontology.".
Proof.
  split; [reflexivity|].
  destruct (no_modules_report (graph_of []) (store_of []) eq_refl) as (H1 & _ & H2 & _).
  split; [exact H1 | exact H2].
Defined.

(** C3 (the handler at a status outside the canonical set): the
    [update_module_status] tool accepts ["done"] and persists it. *)
Theorem update_module_status_persists_noncanonical (G : Graph) (st : Store) :
  call_tool "update_module_status" (mkArgs (Some "A") (Some "done")) G st =
    Some (TextResult "Status updated", set_db_status st "A" "done") /\
  get_db_status (set_db_status st "A" "done") "A" = Some "done".
Proof. split; reflexivity. Qed.

(** C6 (counterexample): on a graph with the cycle A <-> B, the
    [get_project_next_steps] tool still returns the ready list ["C"]. *)
Lemma next_steps_tool_with_cycle :
  cyclic fx_cycle_graph /\
  call_tool "get_project_next_steps" (mkArgs None None) fx_cycle_graph fx_all_pending =
    Some (ReadyResult ["C"], fx_all_pending).
Proof.
  split; [apply detect_cycles_correct; vm_compute; reflexivity | reflexivity].
Qed.

(** C6 (amended): [get_project_next_steps] answers with [compute_next_steps]
    whatever the graph, without consulting the cycle detector; the cycle
    condition is reported by [evaluate_project_state] and [diagnose_stall],
    which both classify any cyclic graph as ["blocked_by_cycle"]. *)
Theorem next_steps_tool_ungated (G : Graph) (st : Store) (args : ToolArgs) :
  call_tool "get_project_next_steps" args G st =
    Some (ReadyResult (compute_next_steps G st), st) /\
  (cyclic G ->
   evaluate_project_state G st = "blocked_by_cycle" /\
   d_state (diagnose_stall G st) = "blocked_by_cycle").
Proof.
  split; [reflexivity|]. intros Hc.
  pose proof (proj2 (detect_cycles_correct G) Hc) as Hd.
  split.
  - unfold evaluate_project_state. rewrite Hd. reflexivity.
  - unfold diagnose_stall. cbv zeta. pose proof (cyclic_has_module G Hc) as Hm.
    destruct (modules G); [contradiction|]. rewrite Hd. reflexivity.
Qed.

(* ================================================================= *)
(** * Proofs: compute_operational_critical_path *)

Lemma cp_succ_In G st x y : In y (cp_succ G st x) <-> cp_edge G st x y.
Proof.
  unfold cp_succ, cp_edge. rewrite in_flat_map. split.
  - intros (m & Hm & Hy). rewrite in_flat_map in Hy. destruct Hy as (d & Hd & Hy).
    destruct (String.eqb d x && mem d (active_modules G st)) eqn:E; [|destruct Hy].
    destruct Hy as [<-|[]]. apply andb_true_iff in E as [E1 E2].
    apply String.eqb_eq in E1. subst d. apply mem_In in E2. auto.
  - intros (Hx & Hy & Hd). exists y. split; [exact Hy|].
    apply in_flat_map. exists x. split; [exact Hd|].
    rewrite String.eqb_refl. apply mem_In in Hx. rewrite Hx. left. reflexivity.
Qed.

Lemma good_pos G st n r : good G st n r -> 1 <= fst r.
Proof.
  intros ((rest & Hp & _) & Hl & _). rewrite Hl, Hp. simpl. lia.
Qed.

Lemma bounded_mono G st n k k' : bounded G st n k -> k <= k' -> bounded G st n k'.
Proof. intros H Hk rest Hr. specialize (H rest Hr). lia. Qed.

Lemma BInv_step G st D b n r :
  BInv G st D b -> good G st n r ->
  BInv G st (D ++ [n]) (if Nat.ltb (fst b) (fst r) then r else b).
Proof.
  intros HB Hg. pose proof (good_pos G st n r Hg) as Hpos.
  destruct HB as [[-> ->] | (pre & n0 & post & HD & Hg0 & Hpre & Hall)].
  - simpl. destruct (Nat.ltb 0 (fst r)) eqn:E; [|apply Nat.ltb_ge in E; lia].
    right. exists [], n, []. split; [reflexivity|]. split; [exact Hg|].
    split; [intros ? []|]. intros m [<-|[]]. exact (proj2 (proj2 Hg)).
  - destruct (Nat.ltb (fst b) (fst r)) eqn:E.
    + apply Nat.ltb_lt in E. right. exists D, n, []. split; [reflexivity|].
      split; [exact Hg|]. split.
      * intros m Hm rest Hr. specialize (Hall m Hm rest Hr). lia.
      * intros m Hm. apply in_app_or in Hm. destruct Hm as [Hm|[<-|[]]].
        -- eapply bounded_mono; [apply Hall; exact Hm | lia].
        -- exact (proj2 (proj2 Hg)).
    + apply Nat.ltb_ge in E. right. exists pre, n0, (post ++ [n]).
      split; [rewrite HD, <- app_assoc; reflexivity|].
      split; [exact Hg0|]. split; [exact Hpre|].
      intros m Hm. apply in_app_or in Hm. destruct Hm as [Hm|[<-|[]]].
      * apply Hall. exact Hm.
      * eapply bounded_mono; [exact (proj2 (proj2 Hg)) | exact E].
Qed.

Lemma best_of_spec G st (rec : string -> Memo -> option (CPResult * Memo))
  (Hrec : forall n memo r memo', memo_ok G st memo -> rec n memo = Some (r, memo') ->
          good G st n r /\ memo_ok G st memo') :
  forall ns D b memo b' memo',
  BInv G st D b -> memo_ok G st memo -> best_of rec ns b memo = Some (b', memo') ->
  BInv G st (D ++ ns) b' /\ memo_ok G st memo'.
Proof.
  induction ns as [|n ns IH]; simpl; intros D b memo b' memo' HB Hm H.
  - inversion H; subst. rewrite app_nil_r. auto.
  - destruct (rec n memo) as [[r memo1]|] eqn:E; [|discriminate].
    destruct (Hrec _ _ _ _ Hm E) as [Hg Hm1].
    replace (D ++ n :: ns) with ((D ++ [n]) ++ ns) by (rewrite <- app_assoc; reflexivity).
    eapply IH; [apply BInv_step; eauto | exact Hm1 | exact H].
Qed.

Lemma memo_ok_nil G st : memo_ok G st [].
Proof. intros k r H. discriminate H. Qed.

Lemma memo_ok_cons G st memo n r :
  memo_ok G st memo -> good G st n r -> memo_ok G st ((n, r) :: memo).
Proof.
  intros Hm Hg k r' H. simpl in H. destruct (String.eqb n k) eqn:E.
  - apply String.eqb_eq in E. subst. inversion H; subst. exact Hg.
  - apply Hm. exact H.
Qed.

Lemma longest_spec G st f : forall n memo r memo',
  memo_ok G st memo -> longest G st f n memo = Some (r, memo') ->
  good G st n r /\ memo_ok G st memo'.
Proof.
  induction f as [|f IH]; intros n memo r memo' Hm H; simpl in H; [discriminate|].
  destruct (memo_find n memo) as [r0|] eqn:Ef.
  - inversion H; subst. split; [apply Hm; exact Ef | exact Hm].
  - destruct (cp_succ G st n) as [|s ss] eqn:Es.
    + inversion H; subst.
      assert (Hg : good G st n (1, [n])).
      { split; [exists []; split; [reflexivity | exact I]|]. split; [reflexivity|].
        intros [|y rest] Hr; [simpl; lia|]. destruct Hr as [He _].
        apply cp_succ_In in He. rewrite Es in He. destruct He. }
      split; [exact Hg | apply memo_ok_cons; assumption].
    + assert (H' : match best_of (longest G st f) (s :: ss) (0, []) memo with
                     | Some ((bl, bp), memo1) =>
                         Some ((S bl, n :: bp), (n, (S bl, n :: bp)) :: memo1)
                     | None => None
                     end = Some (r, memo')) by exact H.
      clear H. rename H' into H.
      destruct (best_of (longest G st f) (s :: ss) (0, []) memo)
        as [[[bl bp] memo1]|] eqn:Eb; [|discriminate].
      inversion H; subst r memo'; clear H.
      destruct (best_of_spec G st (longest G st f) IH _ [] _ _ _ _
                  (or_introl (conj eq_refl eq_refl)) Hm Eb) as [HB Hm1].
      destruct HB as [[HD _] | (pre & n0 & post & HD & Hg0 & _ & Hall)];
        [discriminate|].
      simpl in HD.
      assert (Hn0 : In n0 (cp_succ G st n)).
      { rewrite Es, HD. apply in_or_app. right. left. reflexivity. }
      destruct Hg0 as ((rest0 & Hp0 & Hl0) & Hlen & _). simpl in Hp0, Hlen.
      assert (Hg : good G st n (S bl, n :: bp)).
      { split; [exists bp; split; [reflexivity|]|]. 
        - rewrite Hp0. split; [apply cp_succ_In; exact Hn0 | exact Hl0].
        - split; [simpl; rewrite Hlen; reflexivity|].
          intros [|y rest] Hr; [simpl; lia|]. destruct Hr as [He Hr].
          apply cp_succ_In in He. rewrite Es in He.
          pose proof (Hall y (ltac:(simpl; exact He)) rest Hr) as Hb.
          simpl in Hb |- *. lia. }
      split; [exact Hg | apply memo_ok_cons; assumption].
Qed.

Lemma cp_run_spec G st f r :
  cp_run f G st = Some r -> BInv G st (active_modules G st) r.
Proof.
  unfold cp_run.
  destruct (best_of (longest G st f) (active_modules G st) (0, []) [])
    as [[b memo]|] eqn:E; [|discriminate].
  intros H. inversion H; subst.
  destruct (best_of_spec G st (longest G st f) (longest_spec G st f) _ [] _ _ _ _
              (or_introl (conj eq_refl eq_refl)) (memo_ok_nil G st) E)
    as [HB _].
  exact HB.
Qed.

Lemma best_of_some (rec : string -> Memo -> option (CPResult * Memo)) :
  forall ns b memo,
  (forall n, In n ns -> forall memo, exists r memo', rec n memo = Some (r, memo')) ->
  exists b' memo', best_of rec ns b memo = Some (b', memo').
Proof.
  induction ns as [|n ns IH]; simpl; intros b memo H; [eauto|].
  destruct (H n (or_introl eq_refl) memo) as (r & memo1 & E). rewrite E.
  apply IH. intros m Hm. apply H. right. exact Hm.
Qed.

Lemma longest_some G st f : forall n memo,
  (forall rest, linked G st n rest -> length rest < f) ->
  exists r memo', longest G st f n memo = Some (r, memo').
Proof.
  induction f as [|f IH]; intros n memo Hb.
  - specialize (Hb [] I). simpl in Hb. lia.
  - simpl. destruct (memo_find n memo) as [r|]; [eauto|].
    destruct (cp_succ G st n) as [|s ss] eqn:Es; [eauto|].
    destruct (best_of_some (longest G st f) (s :: ss) (0, []) memo)
      as ([bl bp] & memo1 & E).
    + intros m Hm memo0. apply IH. intros rest Hr.
      assert (Hl : linked G st n (m :: rest)).
      { split; [apply cp_succ_In; rewrite Es; exact Hm | exact Hr]. }
      specialize (Hb _ Hl). simpl in Hb. lia.
    + change (exists r memo',
        match best_of (longest G st f) (s :: ss) (0, []) memo with
        | Some ((bl, bp), memo1) =>
            Some ((S bl, n :: bp), (n, (S bl, n :: bp)) :: memo1)
        | None => None
        end = Some (r, memo')).
      rewrite E. eauto.
Qed.

Lemma linked_reach G st : forall rest x z,
  linked G st x rest -> In z rest -> clos_trans string (cp_edge G st) x z.
Proof.
  induction rest as [|a rest IH]; simpl; intros x z Hl Hz; [contradiction|].
  destruct Hl as [He Hl]. destruct Hz as [<-|Hz]; [apply t_step; exact He|].
  apply t_trans with a; [apply t_step; exact He | apply IH; assumption].
Qed.

Lemma linked_nodup G st (Hac : cp_acyclic G st) : forall rest x,
  linked G st x rest -> NoDup (x :: rest).
Proof.
  induction rest as [|a rest IH]; intros x Hl.
  - constructor; [intros []| constructor].
  - constructor.
    + intros Hin. apply (Hac x). eapply linked_reach; eauto.
    + destruct Hl as [_ Hl]. apply IH. exact Hl.
Qed.

Lemma linked_active G st : forall rest x z,
  linked G st x rest -> In z rest -> In z (active_modules G st).
Proof.
  induction rest as [|a rest IH]; simpl; intros x z Hl Hz; [contradiction|].
  destruct Hl as [(_ & Ha & _) Hl]. destruct Hz as [<-|Hz]; [exact Ha|].
  eapply IH; eauto.
Qed.

Lemma linked_length G st (Hac : cp_acyclic G st) : forall x rest,
  linked G st x rest -> length rest < S (length (active_modules G st)).
Proof.
  intros x [|y rest] Hl; [simpl; lia|].
  assert (Hx : In x (active_modules G st)) by exact (proj1 (proj1 Hl)).
  assert (Hinc : incl (x :: y :: rest) (active_modules G st)).
  { intros z [<-|Hz]; [exact Hx | eapply linked_active; eauto]. }
  pose proof (NoDup_incl_length (linked_nodup G st Hac _ _ Hl) Hinc) as H.
  simpl in H |- *. lia.
Qed.

Lemma cp_terminates G st (Hac : cp_acyclic G st) :
  exists r, compute_operational_critical_path G st = Some r.
Proof.
  unfold compute_operational_critical_path, cp_run.
  destruct (best_of_some (longest G st (S (length (active_modules G st))))
              (active_modules G st) (0, []) []) as (b & memo & E).
  - intros n _ memo. apply longest_some. intros rest Hr.
    eapply linked_length; eauto.
  - rewrite E. eauto.
Qed.

Lemma chain_from_active G st q :
  chain G st q -> exists n rest, q = n :: rest /\ In n (active_modules G st) /\ linked G st n rest.
Proof. destruct q as [|n rest]; [intros []|]. intros [H1 H2]. eauto. Qed.

(** C7: when the operational subgraph is acyclic, the critical path is a
    longest chain of it (dependency to dependent, both ends not completed),
    its length the node count; no active module gives (0, []); all modules
    completed gives (0, []); the chain fixture with A completed gives
    (2, [B; C]). *)
Theorem critical_path_longest_chain (G : Graph) (st : Store) (Hac : cp_acyclic G st) :
  (exists r, compute_operational_critical_path G st = Some r /\
     (active_modules G st = [] -> r = (0, [])) /\
     (active_modules G st <> [] ->
        chain G st (snd r) /\ fst r = length (snd r) /\
        forall q, chain G st q -> length q <= fst r)) /\
  ((forall m, In m (modules G) -> get_db_status st m = Some "completed") ->
     compute_operational_critical_path G st = Some (0, [])) /\
  compute_operational_critical_path fx_chain_graph fx_chain_store = Some (2, ["B"; "C"]).
Proof.
  split; [|split; [|vm_compute; reflexivity]].
  - destruct (cp_terminates G st Hac) as [r E]. exists r. split; [exact E|].
    pose proof (cp_run_spec G st _ r E) as HB.
    destruct HB as [[HD Hr] | (pre & n0 & post & HD & Hg & _ & Hall)].
    + split; [intros _; exact Hr | intros Hn; contradiction].
    + split; [intros Hn; rewrite Hn in HD; destruct pre; discriminate|].
      intros _. destruct Hg as ((rest & Hp & Hl) & Hlen & _).
      split; [|split; [exact Hlen|]].
      * rewrite Hp. split; [rewrite HD; apply in_or_app; right; left; reflexivity | exact Hl].
      * intros q Hq. destruct (chain_from_active G st q Hq) as (n & rest' & -> & Hn & Hl').
        exact (Hall n Hn rest' Hl').
  - intros Hc.
    assert (Ha : active_modules G st = []).
    { unfold active_modules. destruct (filter _ (modules G)) as [|a l] eqn:E; [reflexivity|].
      assert (Hin : In a (a :: l)) by (left; reflexivity). rewrite <- E in Hin.
      apply filter_In in Hin. destruct Hin as [Hm Hn].
      rewrite (proj2 (status_is_spec st a "completed") (Hc a Hm)) in Hn. discriminate. }
    unfold compute_operational_critical_path, cp_run. rewrite Ha. reflexivity.
Qed.

Lemma fx_chain_cp_edge x y :
  cp_edge fx_chain_graph fx_chain_store x y -> x = "B" /\ y = "C".
Proof.
  intros (Hx & Hy & Hd).
  change (active_modules fx_chain_graph fx_chain_store) with ["B"; "C"] in Hx, Hy.
  destruct Hy as [<-|[<-|[]]]; simpl in Hd.
  - destruct Hd as [<-|[]]. destruct Hx as [H|[H|[]]]; discriminate H.
  - destruct Hd as [<-|[]]. split; reflexivity.
Qed.

Lemma fx_chain_acyclic : cp_acyclic fx_chain_graph fx_chain_store.
Proof.
  assert (Ht : forall x y, clos_trans string (cp_edge fx_chain_graph fx_chain_store) x y ->
                           x = "B" /\ y = "C").
  { intros x y H. induction H as [x y He | x y z _ [H1 H2] _ [H3 H4]].
    - apply fx_chain_cp_edge. exact He.
    - subst. discriminate H3. }
  intros x H. destruct (Ht x x H) as [-> H']. discriminate H'.
Qed.

Lemma critical_path_longest_chain_witness :
  cp_acyclic fx_chain_graph fx_chain_store /\
  compute_operational_critical_path fx_chain_graph fx_chain_store = Some (2, ["B"; "C"]).
Proof.
  split; [exact fx_chain_acyclic|].
  exact (proj2 (proj2 (critical_path_longest_chain fx_chain_graph fx_chain_store
                         fx_chain_acyclic))).
Defined.

Lemma fx_cycle_longest_diverges : forall f,
  longest fx_cycle_graph fx_all_pending f "A" [] = None /\
  longest fx_cycle_graph fx_all_pending f "B" [] = None.
Proof.
  induction f as [|f [HA HB]]; [split; reflexivity|].
  assert (SA : cp_succ fx_cycle_graph fx_all_pending "A" = ["B"]) by reflexivity.
  assert (SB : cp_succ fx_cycle_graph fx_all_pending "B" = ["A"]) by reflexivity.
  split; cbn [longest memo_find]; [rewrite SA | rewrite SB]; cbn [best_of];
    [rewrite HB | rewrite HA]; reflexivity.
Qed.

(** C2 (failing input): with A and B depending on each other and both
    pending, [longest] recurses A, B, A, ... before any [memo] entry is
    written: no recursion depth suffices, and the
    [compute_operational_critical_path] tool never answers. *)
Theorem critical_path_diverges_on_cycle :
  (forall fuel, cp_run fuel fx_cycle_graph fx_all_pending = None) /\
  call_tool "compute_operational_critical_path" (mkArgs None None)
    fx_cycle_graph fx_all_pending = None.
Proof.
  assert (H : forall fuel, cp_run fuel fx_cycle_graph fx_all_pending = None).
  { intros fuel. unfold cp_run.
    change (active_modules fx_cycle_graph fx_all_pending) with ["A"; "B"; "C"].
    cbn [best_of]. rewrite (proj1 (fx_cycle_longest_diverges fuel)). reflexivity. }
  split; [exact H|].
  unfold call_tool. cbn -[compute_operational_critical_path].
  unfold compute_operational_critical_path. rewrite H. reflexivity.
Qed.

Lemma Permutation_filter_same {A} (f : A -> bool) l l' :
  Permutation l l' -> Permutation (filter f l) (filter f l').
Proof.
  intros H. induction H; simpl.
  - constructor.
  - destruct (f x); [constructor|]; assumption.
  - destruct (f x), (f y); try constructor; apply Permutation_refl.
  - eapply Permutation_trans; eassumption.
Qed.

(** C9 (counterexample): the same two pending modules without
    dependencies, enumerated as [A; B] and as [B; A], give the ready lists
    [A; B] and [B; A] and the critical paths [A] and [B]. *)
Lemma enumeration_order_changes_results :
  Permutation (modules fx_ab_graph) (modules fx_ba_graph) /\
  (forall x, deps fx_ab_graph x = deps fx_ba_graph x) /\
  compute_next_steps fx_ab_graph fx_all_pending = ["A"; "B"] /\
  compute_next_steps fx_ba_graph fx_all_pending = ["B"; "A"] /\
  compute_operational_critical_path fx_ab_graph fx_all_pending = Some (1, ["A"]) /\
  compute_operational_critical_path fx_ba_graph fx_all_pending = Some (1, ["B"]).
Proof.
  split; [apply perm_swap|]. split.
  - intros x. unfold fx_ab_graph, fx_ba_graph, graph_of. cbn [deps find fst].
    destruct (String.eqb "A" x), (String.eqb "B" x); reflexivity.
  - repeat split; vm_compute; reflexivity.
Qed.

(** C9 (amended): [compute_next_steps] keeps GraphSource's enumeration
    order (no sort): two ready modules appear in the ready list in the
    order in which they are enumerated, and two enumerations of the same
    modules and edges give permutations of one ready list.
    [compute_operational_critical_path] (acyclic operational subgraph, some
    active module) returns a longest chain, its length the node count,
    starting at the first active module, in enumeration order, whose
    longest chain is maximal: every active module listed before it has only
    shorter chains. *)
Theorem results_follow_enumeration_order (G1 G2 : Graph) (st : Store) :
  (forall a m1 b m2 c, modules G1 = a ++ m1 :: b ++ m2 :: c ->
   get_db_status st m1 = Some "pending" ->
   (forall d, In d (deps G1 m1) -> get_db_status st d = Some "completed") ->
   get_db_status st m2 = Some "pending" ->
   (forall d, In d (deps G1 m2) -> get_db_status st d = Some "completed") ->
   exists x y z, compute_next_steps G1 st = x ++ m1 :: y ++ m2 :: z) /\
  ((forall x, deps G1 x = deps G2 x) -> Permutation (modules G1) (modules G2) ->
   Permutation (compute_next_steps G1 st) (compute_next_steps G2 st)) /\
  (cp_acyclic G1 st -> active_modules G1 st <> [] ->
   exists r pre n0 post rest,
     compute_operational_critical_path G1 st = Some r /\
     active_modules G1 st = pre ++ n0 :: post /\ snd r = n0 :: rest /\
     chain G1 st (snd r) /\ fst r = length (snd r) /\
     (forall q, chain G1 st q -> length q <= fst r) /\
     forall n, In n pre -> forall q, linked G1 st n q -> S (length q) < fst r).
Proof.
  split; [|split].
  - intros a m1 b m2 c Hm Hp1 Hd1 Hp2 Hd2.
    assert (Hr : forall m, get_db_status st m = Some "pending" ->
                 (forall d, In d (deps G1 m) -> get_db_status st d = Some "completed") ->
                 status_is st m "pending" &&
                 forallb (fun d => status_is st d "completed") (deps G1 m) = true).
    { intros m Hp Hd. apply andb_true_iff. split; [apply status_is_spec; exact Hp|].
      apply forallb_forall. intros d Hin. apply status_is_spec, Hd, Hin. }
    unfold compute_next_steps. rewrite Hm, filter_app. simpl. rewrite (Hr m1 Hp1 Hd1).
    rewrite filter_app. simpl. rewrite (Hr m2 Hp2 Hd2).
    eexists _, _, _. reflexivity.
  - intros Hd Hp. unfold compute_next_steps.
    rewrite (filter_ext
      (fun m => status_is st m "pending" &&
                forallb (fun d => status_is st d "completed") (deps G1 m))
      (fun m => status_is st m "pending" &&
                forallb (fun d => status_is st d "completed") (deps G2 m)))
      by (intros m; rewrite Hd; reflexivity).
    apply Permutation_filter_same. exact Hp.
  - intros Hac Hne. destruct (cp_terminates G1 st Hac) as [r E].
    destruct (cp_run_spec G1 st _ r E)
      as [[HD _] | (pre & n0 & post & HD & Hg & Hpre & Hall)]; [contradiction|].
    destruct Hg as ((rest & Hp & Hl) & Hlen & _).
    exists r, pre, n0, post, rest.
    split; [exact E|]. split; [exact HD|]. split; [exact Hp|]. split.
    + rewrite Hp. split; [rewrite HD; apply in_or_app; right; left; reflexivity | exact Hl].
    + split; [exact Hlen|]. split; [|exact Hpre].
      intros q Hq. destruct (chain_from_active G1 st q Hq) as (n & rest' & -> & Hn & Hl').
      exact (Hall n Hn rest' Hl').
Qed.

(* ================================================================= *)
(** * Proofs: reads of the status store *)

Lemma insert_sorted_In x y l : In y (insert_sorted x l) <-> y = x \/ In y l.
Proof.
  induction l as [|a l IH]; simpl; [intuition congruence|].
  destruct (String.leb x a); simpl; [intuition congruence|].
  rewrite IH. intuition congruence.
Qed.

Lemma sort_strings_In x l : In x (sort_strings l) <-> In x l.
Proof.
  induction l as [|a l IH]; simpl; [tauto|].
  rewrite insert_sorted_In, IH. split; intros [H|H]; auto.
Qed.

Lemma forallb_ext_in {A} (f g : A -> bool) l :
  (forall x, In x l -> f x = g x) -> forallb f l = forallb g l.
Proof.
  induction l as [|a l IH]; simpl; intros H; [reflexivity|].
  rewrite (H a (or_introl eq_refl)), IH; [reflexivity|].
  intros x Hx. apply H. right. exact Hx.
Qed.

Lemma flat_map_ext_in {A B} (f g : A -> list B) l :
  (forall x, In x l -> f x = g x) -> flat_map f l = flat_map g l.
Proof.
  induction l as [|a l IH]; simpl; intros H; [reflexivity|].
  rewrite (H a (or_introl eq_refl)), IH; [reflexivity|].
  intros x Hx. apply H. right. exact Hx.
Qed.

Section Agree.
Variables (G : Graph) (st1 st2 : Store).
Hypothesis Hag : agree G st1 st2.

Lemma agree_is y s :
  (In y (modules G) \/ exists m, In m (modules G) /\ In y (deps G m)) ->
  status_is st1 y s = status_is st2 y s.
Proof. intros H. unfold status_is. rewrite (Hag y H). reflexivity. Qed.

Lemma agree_str y :
  (In y (modules G) \/ exists m, In m (modules G) /\ In y (deps G m)) ->
  status_str st1 y = status_str st2 y.
Proof. intros H. unfold status_str. rewrite (Hag y H). reflexivity. Qed.

Lemma snapshot_agree : get_status_snapshot G st1 = get_status_snapshot G st2.
Proof.
  unfold get_status_snapshot. apply map_ext_in. intros m Hm.
  rewrite sort_strings_In in Hm. rewrite (agree_str m (or_introl Hm)). reflexivity.
Qed.

Lemma forallb_deps_agree m : In m (modules G) ->
  forallb (fun d => status_is st1 d "completed") (deps G m) =
  forallb (fun d => status_is st2 d "completed") (deps G m).
Proof.
  intros Hm. apply forallb_ext_in. intros d Hd. apply agree_is. right. eauto.
Qed.

Lemma next_steps_agree : compute_next_steps G st1 = compute_next_steps G st2.
Proof.
  unfold compute_next_steps. apply filter_ext_in. intros m Hm.
  rewrite (agree_is m "pending" (or_introl Hm)), (forallb_deps_agree m Hm).
  reflexivity.
Qed.

Lemma evaluate_agree : evaluate_project_state G st1 = evaluate_project_state G st2.
Proof.
  unfold evaluate_project_state. rewrite next_steps_agree.
  replace (forallb (fun m => status_is st1 m "completed") (modules G))
    with (forallb (fun m => status_is st2 m "completed") (modules G));
    [reflexivity|].
  apply forallb_ext_in. intros m Hm. symmetry. apply agree_is. left. exact Hm.
Qed.

Lemma pending_agree :
  filter (fun m => status_is st1 m "pending") (modules G) =
  filter (fun m => status_is st2 m "pending") (modules G).
Proof.
  apply filter_ext_in. intros m Hm. apply agree_is. left. exact Hm.
Qed.

Lemma unset_agree :
  filter (fun m => match get_db_status st1 m with None => true | Some _ => false end)
    (modules G) =
  filter (fun m => match get_db_status st2 m with None => true | Some _ => false end)
    (modules G).
Proof.
  apply filter_ext_in. intros m Hm. rewrite (Hag m (or_introl Hm)). reflexivity.
Qed.

Lemma blocked_info_agree P : incl P (modules G) ->
  blocked_info G st1 P = blocked_info G st2 P.
Proof.
  intros HP. unfold blocked_info. apply flat_map_ext_in. intros m Hm.
  assert (Hb : blockers_of G st1 m = blockers_of G st2 m).
  { unfold blockers_of.
    rewrite (filter_ext_in (fun d => negb (status_is st1 d "completed"))
               (fun d => negb (status_is st2 d "completed")))
      by (intros d Hd; rewrite (agree_is d "completed"); [reflexivity | right; eauto]).
    apply map_ext_in. intros d Hd. apply filter_In in Hd.
    rewrite (agree_str d); [reflexivity | right; exists m; split; [apply HP; exact Hm | tauto]]. }
  rewrite Hb. reflexivity.
Qed.

Lemma diagnose_agree : diagnose_stall G st1 = diagnose_stall G st2.
Proof.
  unfold diagnose_stall. cbv zeta.
  rewrite evaluate_agree, snapshot_agree, next_steps_agree, pending_agree, unset_agree.
  rewrite blocked_info_agree; [reflexivity|].
  intros m Hm. apply filter_In in Hm. tauto.
Qed.
End Agree.

Lemma set_db_status_shadow_agree G st x s :
  ~ In x (modules G) -> (forall m, In m (modules G) -> ~ In x (deps G m)) ->
  agree G st (set_db_status st x s).
Proof.
  intros Hx Hd y Hy. unfold get_db_status, set_db_status.
  destruct (String.eqb y x) eqn:E; [|reflexivity].
  apply String.eqb_eq in E. subst y. exfalso.
  destruct Hy as [Hy|(m & Hm & Hy)]; [exact (Hx Hy) | exact (Hd m Hm Hy)].
Qed.

(** C8 (counterexample): a status written for Z, an id GraphSource does not
    know, is stored but absent from the snapshot and from the diagnosis. *)
Lemma shadow_module_not_listed :
  get_db_status (set_db_status fx_chain_store "Z" "pending") "Z" = Some "pending" /\
  get_status_snapshot fx_chain_graph (set_db_status fx_chain_store "Z" "pending") =
    [("A", "completed"); ("B", "pending"); ("C", "pending")] /\
  d_snapshot (diagnose_stall fx_chain_graph (set_db_status fx_chain_store "Z" "pending")) =
    [("A", "completed"); ("B", "pending"); ("C", "pending")].
Proof. repeat split; vm_compute; reflexivity. Qed.

(** C8 (amended): a status written for an id that is neither a declared
    module nor a dependency of one is persisted, but it is not listed by the
    snapshot (which lists exactly the declared modules, sorted) and the
    snapshot and the whole [diagnose_stall] report are the same as before
    the write. *)
Theorem shadow_write_invisible (G : Graph) (st : Store) (x s : string)
  (Hx : ~ In x (modules G))
  (Hd : forall m, In m (modules G) -> ~ In x (deps G m)) :
  get_db_status (set_db_status st x s) x = Some s /\
  map fst (get_status_snapshot G (set_db_status st x s)) = sort_strings (modules G) /\
  ~ In x (map fst (get_status_snapshot G (set_db_status st x s))) /\
  get_status_snapshot G (set_db_status st x s) = get_status_snapshot G st /\
  diagnose_stall G (set_db_status st x s) = diagnose_stall G st.
Proof.
  pose proof (set_db_status_shadow_agree G st x s Hx Hd) as Hag.
  assert (Hfst : map fst (get_status_snapshot G (set_db_status st x s)) =
                 sort_strings (modules G)).
  { unfold get_status_snapshot. rewrite map_map. apply map_id. }
  split; [unfold get_db_status, set_db_status; rewrite String.eqb_refl; reflexivity|].
  split; [exact Hfst|]. split.
  - rewrite Hfst, sort_strings_In. exact Hx.
  - split; symmetry; [apply snapshot_agree | apply diagnose_agree]; exact Hag.
Qed.

Lemma shadow_write_invisible_witness :
  ~ In "Z" (modules fx_chain_graph) /\
  diagnose_stall fx_chain_graph (set_db_status fx_chain_store "Z" "pending") =
    diagnose_stall fx_chain_graph fx_chain_store.
Proof.
  assert (Hx : ~ In "Z" (modules fx_chain_graph)).
  { simpl. intros [H|[H|[H|[]]]]; discriminate H. }
  assert (Hd : forall m, In m (modules fx_chain_graph) -> ~ In "Z" (deps fx_chain_graph m)).
  { simpl. intros m [<-|[<-|[<-|[]]]]; simpl; intros H;
      repeat (destruct H as [H|H]; [discriminate H|]); exact H. }
  split; [exact Hx|].
  exact (proj2 (proj2 (proj2 (proj2
           (shadow_write_invisible fx_chain_graph fx_chain_store "Z" "pending" Hx Hd))))).
Defined.

(* ================================================================= *)
(** * Proofs: quality/structural_validator.py and quality/recommendations.py *)

Lemma fold_append_filter {A} (g : A -> bool) l acc :
  fold_left (fun acc x => if g x then acc ++ [x] else acc) l acc = acc ++ filter g l.
Proof.
  revert acc. induction l as [|x l IH]; intros acc; simpl.
  - rewrite app_nil_r. reflexivity.
  - destruct (g x); rewrite IH; [rewrite <- app_assoc|]; reflexivity.
Qed.

Lemma fold_append_map {A B} (h : A -> B) l acc :
  fold_left (fun acc x => acc ++ [h x]) l acc = acc ++ map h l.
Proof.
  revert acc. induction l as [|x l IH]; intros acc; simpl.
  - rewrite app_nil_r. reflexivity.
  - rewrite IH, <- app_assoc. reflexivity.
Qed.

Lemma structural_missing_eq p :
  missing_fields (structural_validate p) = filter (field_missing p) schema_required_fields.
Proof. unfold structural_validate. cbn [missing_fields]. exact (fold_append_filter _ _ []). Qed.

Lemma structural_score_eq p :
  structural_score (structural_validate p) =
  score_of_count (length (missing_fields (structural_validate p))).
Proof.
  unfold structural_validate. cbn [missing_fields structural_score].
  destruct (fold_left _ _ _); reflexivity.
Qed.

Lemma mem_filter_In f (g : string -> bool) l :
  In f l -> mem f (filter g l) = g f.
Proof.
  intros Hf. destruct (g f) eqn:Eg.
  - apply mem_In, filter_In. tauto.
  - apply mem_false. intros H. apply filter_In in H. destruct H as [_ H]. congruence.
Qed.

Lemma field_missing_spec p f :
  field_missing p f = true <-> p f = None \/ exists v, p f = Some v /\ py_truthy v = false.
Proof.
  unfold field_missing. destruct (p f) as [v|].
  - split.
    + intros H. right. exists v. split; [reflexivity|]. destruct (py_truthy v); easy.
    + intros [H|[v' [H1 H2]]]; [discriminate H|]. injection H1 as <-. rewrite H2. reflexivity.
  - tauto.
Qed.

Lemma schema_required_NoDup : NoDup schema_required_fields.
Proof.
  unfold schema_required_fields.
  repeat constructor; simpl; intros H; repeat (destruct H as [H|H]; [discriminate H|]); exact H.
Qed.

Lemma score_table : forall k, k <= 11 ->
  exists x, score_of_count k = NumFloat x /\
    SpecFloat.SFleb (SpecFloat.S754_zero false) x = true /\
    (x = f64_one <-> k = 0) /\
    (x = SpecFloat.S754_zero false <-> k = 11) /\
    (SpecFloat.SFleb schema_threshold x = true <-> k = 0).
Proof.
  intros k Hk.
  do 12 (destruct k as [|k];
         [eexists; split; [vm_compute; reflexivity|];
          vm_compute; repeat split; intros; first [reflexivity | discriminate | lia] |]).
  lia.
Qed.

Lemma score_decreasing_table :
  forallb (fun k => forallb (fun j =>
      SpecFloat.SFltb (num_float (score_of_count k)) (num_float (score_of_count j)))
    (seq 0 k)) (seq 0 12) = true.
Proof. vm_compute. reflexivity. Qed.

Lemma missing_count_le p : length (missing_fields (structural_validate p)) <= 11.
Proof. rewrite structural_missing_eq. apply (filter_length_le (field_missing p) schema_required_fields). Qed.

Lemma missing_fields_In p f :
  In f (missing_fields (structural_validate p)) <->
  In f schema_required_fields /\ (p f = None \/ exists v, p f = Some v /\ py_truthy v = false).
Proof. rewrite structural_missing_eq, filter_In, field_missing_spec. reflexivity. Qed.

Lemma hard_block_bool p :
  hard_block (structural_validate p) =
    field_missing p "research_question" || field_missing p "methodology_type"
    || field_missing p "analysis_plan".
Proof.
  unfold structural_validate. cbn [hard_block].
  rewrite fold_append_filter. cbn [app]. unfold schema_critical_fields. cbn [fold_left].
  rewrite !mem_filter_In by (unfold schema_required_fields; simpl; tauto).
  destruct (field_missing p "research_question"), (field_missing p "methodology_type"),
    (field_missing p "analysis_plan"); reflexivity.
Qed.

Lemma hard_block_iff p :
  hard_block (structural_validate p) = true <->
  exists f, In f schema_critical_fields /\ In f (missing_fields (structural_validate p)).
Proof.
  rewrite hard_block_bool, structural_missing_eq.
  setoid_rewrite filter_In. unfold schema_critical_fields, schema_required_fields.
  split.
  - intros H. repeat rewrite orb_true_iff in H.
    destruct H as [[H|H]|H];
      [exists "research_question" | exists "methodology_type" | exists "analysis_plan"];
      (split; [simpl; tauto | split; [simpl; tauto | exact H]]).
  - intros [f [Hf [_ Hm]]]. simpl in Hf.
    repeat rewrite orb_true_iff.
    destruct Hf as [<-|[<-|[<-|[]]]]; tauto.
Qed.

(** [missing_fields] lists, in schema order and without repetition, exactly
    the required fields that are absent from the proposal or hold a falsy
    value. *)
Theorem structural_validate_missing_fields (p : Proposal) :
  missing_fields (structural_validate p) = filter (field_missing p) schema_required_fields /\
  NoDup (missing_fields (structural_validate p)) /\
  (forall f, In f (missing_fields (structural_validate p)) <->
     In f schema_required_fields /\
     (p f = None \/ exists v, p f = Some v /\ py_truthy v = false)).
Proof.
  split; [apply structural_missing_eq|]. split.
  - rewrite structural_missing_eq. apply NoDup_filter, schema_required_NoDup.
  - apply missing_fields_In.
Qed.

(** [hard_block] is set exactly when one of the three critical fields
    ([research_question], [methodology_type], [analysis_plan]) is missing. *)
Theorem structural_validate_hard_block (p : Proposal) :
  hard_block (structural_validate p) =
    field_missing p "research_question" || field_missing p "methodology_type"
    || field_missing p "analysis_plan" /\
  (hard_block (structural_validate p) = true <->
     exists f, In f schema_critical_fields /\ In f (missing_fields (structural_validate p))).
Proof. split; [apply hard_block_bool | apply hard_block_iff]. Qed.

(** The score is always the binary64 float [1.0 - k/11] for [k] missing
    fields: [max(score, 0)] never replaces it by the int [0].  It is never
    negative, it is [1.0] only when no field is missing, [0.0] only when all
    eleven are, and it reaches the schema threshold [0.95] only when no field
    is missing. *)
Theorem structural_score_range (p : Proposal) :
  exists x, structural_score (structural_validate p) = NumFloat x /\
    SpecFloat.SFleb (SpecFloat.S754_zero false) x = true /\
    (x = f64_one <-> missing_fields (structural_validate p) = []) /\
    (x = SpecFloat.S754_zero false <->
       length (missing_fields (structural_validate p)) = length schema_required_fields) /\
    (SpecFloat.SFleb schema_threshold x = true <-> missing_fields (structural_validate p) = []).
Proof.
  rewrite structural_score_eq.
  destruct (score_table _ (missing_count_le p)) as [x [Hx [H0 [H1 [H2 H3]]]]].
  exists x. split; [exact Hx|]. split; [exact H0|].
  rewrite <- length_zero_iff_nil. split; [exact H1|]. split; [exact H2|exact H3].
Qed.

(** A proposal with more missing fields gets a strictly lower score. *)
Theorem structural_score_decreasing (p q : Proposal)
  (Hlt : length (missing_fields (structural_validate p)) <
         length (missing_fields (structural_validate q))) :
  exists x y, structural_score (structural_validate p) = NumFloat x /\
    structural_score (structural_validate q) = NumFloat y /\
    SpecFloat.SFltb y x = true.
Proof.
  rewrite !structural_score_eq.
  set (j := length (missing_fields (structural_validate p))) in *.
  set (k := length (missing_fields (structural_validate q))) in *.
  assert (Hk : k <= 11) by apply missing_count_le.
  destruct (score_table j ltac:(lia)) as [x [Hx _]].
  destruct (score_table k Hk) as [y [Hy _]].
  exists x, y. split; [exact Hx|]. split; [exact Hy|].
  pose proof score_decreasing_table as T.
  rewrite forallb_forall in T. specialize (T k (proj2 (in_seq 12 0 k) ltac:(lia))).
  rewrite forallb_forall in T. specialize (T j (proj2 (in_seq k 0 j) ltac:(lia))).
  rewrite Hx, Hy in T. exact T.
Qed.

Lemma structural_score_decreasing_witness :
  length (missing_fields (structural_validate fx_full_proposal)) <
    length (missing_fields (structural_validate fx_empty_proposal)) /\
  exists x y, structural_score (structural_validate fx_full_proposal) = NumFloat x /\
    structural_score (structural_validate fx_empty_proposal) = NumFloat y /\
    SpecFloat.SFltb y x = true.
Proof.
  assert (H : length (missing_fields (structural_validate fx_full_proposal)) <
              length (missing_fields (structural_validate fx_empty_proposal)))
    by (vm_compute; lia).
  split; [exact H|]. exact (structural_score_decreasing _ _ H).
Defined.

Lemma generate_recommendations_eq vr :
  generate_recommendations vr =
  map missing_rec (get_or_nil (vr_missing_fields vr)) ++
  map violation_rec (get_or_nil (vr_violations vr)).
Proof.
  unfold generate_recommendations.
  rewrite (fold_append_map violation_rec), (fold_append_map missing_rec). reflexivity.
Qed.

(** [generate_recommendations] gives one line per missing field, in order,
    followed by one line per violation, in order; absent keys count as empty
    lists.  A violation's line quotes the violation exactly when it starts
    with none of [MIN_LENGTH], [TYPE], [ENUM] and [REQUIRED_MISSING]. *)
Theorem generate_recommendations_shape (vr : ValidationResult) :
  generate_recommendations vr =
    map missing_rec (get_or_nil (vr_missing_fields vr)) ++
    map violation_rec (get_or_nil (vr_violations vr)) /\
  length (generate_recommendations vr) =
    length (get_or_nil (vr_missing_fields vr)) + length (get_or_nil (vr_violations vr)) /\
  (forall v, violation_rec v = ("Review issue: " ++ v ++ " and adjust proposal accordingly.")%string <->
     String.prefix "MIN_LENGTH" v = false /\ String.prefix "TYPE" v = false /\
     String.prefix "ENUM" v = false /\ String.prefix "REQUIRED_MISSING" v = false).
Proof.
  split; [apply generate_recommendations_eq|]. split.
  - rewrite generate_recommendations_eq, length_app, !length_map. reflexivity.
  - intros v. unfold violation_rec.
    destruct (String.prefix "MIN_LENGTH" v), (String.prefix "TYPE" v),
      (String.prefix "ENUM" v), (String.prefix "REQUIRED_MISSING" v);
      simpl; split; intros H; intuition (first [discriminate | reflexivity]).
Qed.

(** Feeding [structural_validate]'s result to [generate_recommendations]
    gives exactly one ["Add missing required section"] line per missing
    field, in schema order; the list is empty exactly when every required
    field is present and truthy, and a hard block always comes with a line
    naming a missing critical field. *)
Theorem validate_then_recommend (p : Proposal) :
  generate_recommendations (as_validation_result (structural_validate p)) =
    map missing_rec (missing_fields (structural_validate p)) /\
  (generate_recommendations (as_validation_result (structural_validate p)) = [] <->
     forall f, In f schema_required_fields -> exists v, p f = Some v /\ py_truthy v = true) /\
  (hard_block (structural_validate p) = true ->
     exists f, In f schema_critical_fields /\
       In (missing_rec f) (generate_recommendations (as_validation_result (structural_validate p)))).
Proof.
  assert (Heq : generate_recommendations (as_validation_result (structural_validate p)) =
                map missing_rec (missing_fields (structural_validate p))).
  { rewrite generate_recommendations_eq. simpl. apply app_nil_r. }
  split; [exact Heq|]. rewrite Heq. split.
  - split.
    + intros Hn f Hf. destruct (p f) as [v|] eqn:Ep.
      * exists v. split; [reflexivity|]. destruct (py_truthy v) eqn:Et; [reflexivity|].
        exfalso.
        assert (In f (missing_fields (structural_validate p))) as Hm.
        { apply (proj2 (missing_fields_In p f)).
          split; [exact Hf|]. right. exists v. tauto. }
        apply (in_map missing_rec) in Hm. rewrite Hn in Hm. exact Hm.
      * exfalso.
        assert (In f (missing_fields (structural_validate p))) as Hm.
        { apply (proj2 (missing_fields_In p f)). tauto. }
        apply (in_map missing_rec) in Hm. rewrite Hn in Hm. exact Hm.
    + intros Hall. destruct (missing_fields (structural_validate p)) as [|f r] eqn:Em;
        [reflexivity|exfalso].
      assert (Hf : In f (missing_fields (structural_validate p))) by (rewrite Em; left; reflexivity).
      apply missing_fields_In in Hf.
      destruct Hf as [Hreq [Hn|[v [Hv Hf]]]]; destruct (Hall f Hreq) as [v' [Hv' Ht]];
        congruence.
  - intros Hhb. apply hard_block_iff in Hhb.
    destruct Hhb as [f [Hc Hm]]. exists f. split; [exact Hc|]. apply in_map. exact Hm.
Qed.

(* ================================================================= *)
(** * Proofs: the MCP endpoint *)

Lemma call_tool_frame tool args G st r st' :
  call_tool tool args G st = Some (r, st') ->
  st' = st \/
  (tool = "update_module_status" /\
   exists m s, arg_module args = Some m /\ arg_status args = Some s /\
     m <> "" /\ s <> "" /\ st' = set_db_status st m s /\ r = TextResult "Status updated").
Proof.
  unfold call_tool. destruct (String.eqb tool "update_module_status") eqn:Et.
  - apply String.eqb_eq in Et.
    destruct (arg_module args) as [m|] eqn:Em, (arg_status args) as [s|] eqn:Es;
      try (intros H; injection H as _ <-; left; reflexivity).
    unfold truthy. destruct (String.eqb m "") eqn:Hm, (String.eqb s "") eqn:Hs; simpl;
      intros H; injection H as <- <-; try (left; reflexivity).
    right. split; [exact Et|]. exists m, s.
    apply String.eqb_neq in Hm, Hs. tauto.
  - intros H. left.
    destruct (String.eqb tool "get_project_next_steps"); [injection H as _ <-; reflexivity|].
    destruct (String.eqb tool "detect_dependency_cycles"); [injection H as _ <-; reflexivity|].
    destruct (String.eqb tool "compute_operational_critical_path").
    { destruct (compute_operational_critical_path G st); [|discriminate H].
      injection H as _ <-; reflexivity. }
    destruct (String.eqb tool "evaluate_project_state"); [injection H as _ <-; reflexivity|].
    destruct (String.eqb tool "get_module_statuses"); [injection H as _ <-; reflexivity|].
    destruct (String.eqb tool "diagnose_stall"); injection H as _ <-; reflexivity.
Qed.

(** The endpoint never changes the store except on a [tools/call] of
    [update_module_status] with a non-empty module and a non-empty status,
    which writes exactly that row and answers ["Status updated"]. *)
Theorem mcp_store_frame (method name : option string) (args : ToolArgs)
  (G : Graph) (st st' : Store) (r : McpReply)
  (H : mcp method name args G st = Some (r, st')) :
  st' = st \/
  (method = Some "tools/call" /\ name = Some "update_module_status" /\
   exists m s, arg_module args = Some m /\ arg_status args = Some s /\
     m <> "" /\ s <> "" /\ st' = set_db_status st m s /\
     r = CallReply (TextResult "Status updated")).
Proof.
  revert H. unfold mcp. destruct method as [meth|];
    [|intros H; injection H as _ <-; left; reflexivity].
  destruct (String.eqb meth "initialize"); [intros H; injection H as _ <-; left; reflexivity|].
  destruct (String.eqb meth "tools/list"); [intros H; injection H as _ <-; left; reflexivity|].
  destruct (String.eqb meth "tools/call") eqn:Em;
    [|intros H; injection H as _ <-; left; reflexivity].
  apply String.eqb_eq in Em. subst meth.
  destruct (call_tool _ args G st) as [[r0 st0]|] eqn:Ec; [|discriminate].
  intros H. injection H as <- <-.
  destruct (call_tool_frame _ _ _ _ _ _ Ec) as [->|[Ht [m [s [H1 [H2 [H3 [H4 [H5 H6]]]]]]]]];
    [left; reflexivity|].
  right. split; [reflexivity|].
  split; [destruct name; [congruence | discriminate Ht]|].
  exists m, s. subst r0. tauto.
Qed.

Lemma mcp_store_frame_witness :
  mcp (Some "tools/call") (Some "get_project_next_steps") (mkArgs None None)
    fx_chain_graph fx_chain_store =
    Some (CallReply (ReadyResult ["B"]), fx_chain_store) /\
  (fx_chain_store = fx_chain_store \/
   (Some "tools/call" = Some "tools/call" /\
    Some "get_project_next_steps" = Some "update_module_status" /\
    exists m s, arg_module (mkArgs None None) = Some m /\ arg_status (mkArgs None None) = Some s /\
      m <> "" /\ s <> "" /\ fx_chain_store = set_db_status fx_chain_store m s /\
      CallReply (ReadyResult ["B"]) = CallReply (TextResult "Status updated"))).
Proof.
  assert (H : mcp (Some "tools/call") (Some "get_project_next_steps") (mkArgs None None)
                fx_chain_graph fx_chain_store =
              Some (CallReply (ReadyResult ["B"]), fx_chain_store)) by reflexivity.
  split; [exact H|]. exact (mcp_store_frame _ _ _ _ _ _ _ H).
Defined.

(** [update_module_status] without a truthy [module] or a truthy [status]
    answers the ["Missing required arguments"] error and writes nothing. *)
Theorem update_missing_arguments (args : ToolArgs) (G : Graph) (st : Store)
  (H : truthy (arg_module args) = false \/ truthy (arg_status args) = false) :
  mcp (Some "tools/call") (Some "update_module_status") args G st =
    Some (CallReply (ErrorResult "Missing required arguments: module, status"), st).
Proof.
  unfold mcp, call_tool.
  destruct (arg_module args) as [m|], (arg_status args) as [s|]; try reflexivity.
  destruct H as [H|H]; rewrite H; [|rewrite andb_false_r]; reflexivity.
Qed.

Lemma update_missing_arguments_witness :
  (truthy (arg_module (mkArgs (Some "A") (Some ""))) = false \/
   truthy (arg_status (mkArgs (Some "A") (Some ""))) = false) /\
  mcp (Some "tools/call") (Some "update_module_status") (mkArgs (Some "A") (Some ""))
    fx_chain_graph fx_chain_store =
    Some (CallReply (ErrorResult "Missing required arguments: module, status"), fx_chain_store).
Proof.
  assert (H : truthy (arg_module (mkArgs (Some "A") (Some ""))) = false \/
              truthy (arg_status (mkArgs (Some "A") (Some ""))) = false)
    by (right; reflexivity).
  split; [exact H|]. exact (update_missing_arguments _ fx_chain_graph fx_chain_store H).
Defined.

(** [tools/list] advertises exactly the tools [tools/call] dispatches: a
    listed name never gets the ["Unknown tool"] error, any other name always
    gets it, with the store unchanged. *)
Theorem tools_list_matches_dispatch (G : Graph) (st : Store) :
  (forall name args, mcp (Some "tools/list") name args G st = Some (ToolsReply tools_list, st)) /\
  (forall t args r st', In t (map ts_name tools_list) ->
     mcp (Some "tools/call") (Some t) args G st = Some (r, st') ->
     r <> CallReply (ErrorResult ("Unknown tool: " ++ t))) /\
  (forall t args, ~ In t (map ts_name tools_list) ->
     mcp (Some "tools/call") (Some t) args G st =
       Some (CallReply (ErrorResult ("Unknown tool: " ++ t)), st)).
Proof.
  split; [reflexivity|]. split.
  - intros t args r st' Ht. simpl in Ht.
    unfold mcp, call_tool. cbn [String.eqb].
    destruct Ht as [<-|[<-|[<-|[<-|[<-|[<-|[<-|[]]]]]]]]; cbn -[compute_operational_critical_path diagnose_stall];
      try (destruct (arg_module args), (arg_status args); try destruct (_ && _));
      try (destruct (compute_operational_critical_path G st));
      intros H; try discriminate H; injection H as <- _; discriminate.
  - intros t args Ht. simpl in Ht. unfold mcp, call_tool. cbn [String.eqb].
    repeat match goal with
    | |- context [String.eqb t ?c] =>
        replace (String.eqb t c) with false
          by (symmetry; apply String.eqb_neq; intros ->; apply Ht; tauto)
    end.
    reflexivity.
Qed.

Lemma best_of_ext (rec1 rec2 : string -> Memo -> option (CPResult * Memo)) :
  (forall n memo, rec1 n memo = rec2 n memo) ->
  forall ns b memo, best_of rec1 ns b memo = best_of rec2 ns b memo.
Proof.
  intros Hr ns. induction ns as [|n ns IH]; intros b memo; simpl; [reflexivity|].
  rewrite Hr. destruct (rec2 n memo) as [[r memo']|]; [apply IH | reflexivity].
Qed.

Section AgreeReads.
Variables (G : Graph) (st1 st2 : Store).
Hypothesis Hag : agree G st1 st2.

Lemma active_agree : active_modules G st1 = active_modules G st2.
Proof.
  unfold active_modules. apply filter_ext_in. intros m Hm.
  rewrite (agree_is G st1 st2 Hag m "completed"); [reflexivity|].
  left. exact Hm.
Qed.

Lemma cp_succ_agree n : cp_succ G st1 n = cp_succ G st2 n.
Proof. unfold cp_succ. rewrite active_agree. reflexivity. Qed.

Lemma longest_agree f : forall n memo, longest G st1 f n memo = longest G st2 f n memo.
Proof.
  induction f as [|f IH]; intros n memo; simpl; [reflexivity|].
  rewrite cp_succ_agree. destruct (memo_find n memo); [reflexivity|].
  destruct (cp_succ G st2 n) as [|x xs]; [reflexivity|].
  rewrite IH. destruct (longest G st2 f x memo) as [[r memo']|]; [|reflexivity].
  rewrite (best_of_ext _ _ IH). reflexivity.
Qed.

Lemma cp_agree :
  compute_operational_critical_path G st1 = compute_operational_critical_path G st2.
Proof.
  unfold compute_operational_critical_path, cp_run. rewrite active_agree.
  rewrite (best_of_ext _ _ (longest_agree _)). reflexivity.
Qed.

Lemma call_tool_read_agree tool args : tool <> "update_module_status" ->
  option_map fst (call_tool tool args G st1) = option_map fst (call_tool tool args G st2).
Proof.
  intros Ht. apply String.eqb_neq in Ht. unfold call_tool. rewrite Ht.
  rewrite (next_steps_agree G st1 st2 Hag), cp_agree, (evaluate_agree G st1 st2 Hag),
    (snapshot_agree G st1 st2 Hag), (diagnose_agree G st1 st2 Hag).
  repeat match goal with |- context [if ?b then _ else _] => destruct b end;
    try reflexivity.
  destruct (compute_operational_critical_path G st2); reflexivity.
Qed.

Lemma mcp_read_agree method name args :
  name <> Some "update_module_status" ->
  option_map fst (mcp method name args G st1) = option_map fst (mcp method name args G st2).
Proof.
  intros Hn. unfold mcp. destruct method as [meth|]; [|reflexivity].
  destruct (String.eqb meth "initialize"); [reflexivity|].
  destruct (String.eqb meth "tools/list"); [reflexivity|].
  destruct (String.eqb meth "tools/call"); [|reflexivity].
  assert (Ht : match name with Some t => t | None => "None" end <> "update_module_status").
  { destruct name as [t|]; [intros ->; apply Hn; reflexivity | discriminate]. }
  pose proof (call_tool_read_agree _ args Ht) as Hc.
  destruct (call_tool _ args G st1) as [[r1 s1]|], (call_tool _ args G st2) as [[r2 s2]|];
    simpl in Hc; try discriminate Hc; [injection Hc as ->|]; reflexivity.
Qed.
End AgreeReads.

Lemma agree_of_pointwise G st1 st2 :
  (forall y, get_db_status st1 y = get_db_status st2 y) -> agree G st1 st2.
Proof. intros H y _. apply H. Qed.

(** Every reply other than that of [update_module_status] depends on the
    store only through the statuses of the declared modules and of their
    declared dependencies: two stores that agree there give the same reply. *)
Theorem replies_read_only_declared (G : Graph) (st1 st2 : Store)
  (method name : option string) (args : ToolArgs)
  (Hag : agree G st1 st2) (Hn : name <> Some "update_module_status") :
  option_map fst (mcp method name args G st1) = option_map fst (mcp method name args G st2).
Proof. exact (mcp_read_agree G st1 st2 Hag method name args Hn). Qed.

Lemma replies_read_only_declared_witness :
  agree fx_chain_graph fx_chain_store (set_db_status fx_chain_store "Z" "completed") /\
  option_map fst (mcp (Some "tools/call") (Some "diagnose_stall") (mkArgs None None)
                    fx_chain_graph fx_chain_store) =
  option_map fst (mcp (Some "tools/call") (Some "diagnose_stall") (mkArgs None None)
                    fx_chain_graph (set_db_status fx_chain_store "Z" "completed")).
Proof.
  assert (Hx : ~ In "Z" (modules fx_chain_graph)).
  { simpl. intros [H|[H|[H|[]]]]; discriminate H. }
  assert (Hd : forall m, In m (modules fx_chain_graph) -> ~ In "Z" (deps fx_chain_graph m)).
  { simpl. intros m [<-|[<-|[<-|[]]]]; simpl; intros H;
      repeat (destruct H as [H|H]; [discriminate H|]); exact H. }
  pose proof (set_db_status_shadow_agree fx_chain_graph fx_chain_store "Z" "completed" Hx Hd)
    as Hag.
  assert (Hn : Some "diagnose_stall" <> Some "update_module_status") by discriminate.
  split; [exact Hag|].
  exact (replies_read_only_declared _ _ _ _ _ _ Hag Hn).
Defined.

Lemma mcp_update_ok G st m s : m <> "" -> s <> "" ->
  mcp (Some "tools/call") (Some "update_module_status") (mkArgs (Some m) (Some s)) G st =
    Some (CallReply (TextResult "Status updated"), set_db_status st m s).
Proof.
  intros Hm Hs. unfold mcp, call_tool. cbn [arg_module arg_status].
  unfold truthy. apply String.eqb_neq in Hm, Hs. rewrite Hm, Hs. reflexivity.
Qed.

(** Two updates of the same module: the second write wins.  The store then
    holds the same rows, and every other request gets the same reply, as
    after the second update alone; with equal statuses this is
    idempotence. *)
Theorem update_last_write_wins (G : Graph) (st : Store) (m s1 s2 : string)
  (Hm : m <> "") (H1 : s1 <> "") (H2 : s2 <> "") :
  exists st1 st2 st3,
    mcp (Some "tools/call") (Some "update_module_status") (mkArgs (Some m) (Some s1)) G st =
      Some (CallReply (TextResult "Status updated"), st1) /\
    mcp (Some "tools/call") (Some "update_module_status") (mkArgs (Some m) (Some s2)) G st1 =
      Some (CallReply (TextResult "Status updated"), st2) /\
    mcp (Some "tools/call") (Some "update_module_status") (mkArgs (Some m) (Some s2)) G st =
      Some (CallReply (TextResult "Status updated"), st3) /\
    (forall y, get_db_status st2 y = get_db_status st3 y) /\
    (forall method name args, name <> Some "update_module_status" ->
       option_map fst (mcp method name args G st2) = option_map fst (mcp method name args G st3)).
Proof.
  exists (set_db_status st m s1), (set_db_status (set_db_status st m s1) m s2),
    (set_db_status st m s2).
  assert (Hy : forall y, get_db_status (set_db_status (set_db_status st m s1) m s2) y =
                         get_db_status (set_db_status st m s2) y).
  { intros y. unfold get_db_status, set_db_status. destruct (String.eqb y m); reflexivity. }
  split; [apply mcp_update_ok; assumption|].
  split; [apply mcp_update_ok; assumption|].
  split; [apply mcp_update_ok; assumption|].
  split; [exact Hy|].
  intros method name args Hn. apply mcp_read_agree; [apply agree_of_pointwise, Hy | exact Hn].
Qed.

Lemma update_last_write_wins_witness :
  "B" <> "" /\ "completed" <> "" /\ "pending" <> "" /\
  exists st1 st2 st3,
    mcp (Some "tools/call") (Some "update_module_status") (mkArgs (Some "B") (Some "completed"))
      fx_chain_graph fx_chain_store = Some (CallReply (TextResult "Status updated"), st1) /\
    mcp (Some "tools/call") (Some "update_module_status") (mkArgs (Some "B") (Some "pending"))
      fx_chain_graph st1 = Some (CallReply (TextResult "Status updated"), st2) /\
    mcp (Some "tools/call") (Some "update_module_status") (mkArgs (Some "B") (Some "pending"))
      fx_chain_graph fx_chain_store = Some (CallReply (TextResult "Status updated"), st3) /\
    (forall y, get_db_status st2 y = get_db_status st3 y) /\
    (forall method name args, name <> Some "update_module_status" ->
       option_map fst (mcp method name args fx_chain_graph st2) =
       option_map fst (mcp method name args fx_chain_graph st3)).
Proof.
  assert (Hm : "B" <> "") by discriminate.
  assert (H1 : "completed" <> "") by discriminate.
  assert (H2 : "pending" <> "") by discriminate.
  split; [exact Hm|]. split; [exact H1|]. split; [exact H2|].
  exact (update_last_write_wins fx_chain_graph fx_chain_store "B" "completed" "pending" Hm H1 H2).
Defined.

(** Updates of two different modules commute: in either order the store
    ends with the same rows and every other request gets the same reply. *)
Theorem update_distinct_commute (G : Graph) (st : Store) (m1 m2 s1 s2 : string)
  (Hne : m1 <> m2) (Hm1 : m1 <> "") (Hm2 : m2 <> "") (H1 : s1 <> "") (H2 : s2 <> "") :
  exists sa sb sc sd,
    mcp (Some "tools/call") (Some "update_module_status") (mkArgs (Some m1) (Some s1)) G st =
      Some (CallReply (TextResult "Status updated"), sa) /\
    mcp (Some "tools/call") (Some "update_module_status") (mkArgs (Some m2) (Some s2)) G sa =
      Some (CallReply (TextResult "Status updated"), sb) /\
    mcp (Some "tools/call") (Some "update_module_status") (mkArgs (Some m2) (Some s2)) G st =
      Some (CallReply (TextResult "Status updated"), sc) /\
    mcp (Some "tools/call") (Some "update_module_status") (mkArgs (Some m1) (Some s1)) G sc =
      Some (CallReply (TextResult "Status updated"), sd) /\
    (forall y, get_db_status sb y = get_db_status sd y) /\
    (forall method name args, name <> Some "update_module_status" ->
       option_map fst (mcp method name args G sb) = option_map fst (mcp method name args G sd)).
Proof.
  exists (set_db_status st m1 s1), (set_db_status (set_db_status st m1 s1) m2 s2),
    (set_db_status st m2 s2), (set_db_status (set_db_status st m2 s2) m1 s1).
  assert (Hy : forall y, get_db_status (set_db_status (set_db_status st m1 s1) m2 s2) y =
                         get_db_status (set_db_status (set_db_status st m2 s2) m1 s1) y).
  { intros y. unfold get_db_status, set_db_status.
    destruct (String.eqb y m2) eqn:E2, (String.eqb y m1) eqn:E1; try reflexivity.
    apply String.eqb_eq in E1, E2. congruence. }
  split; [apply mcp_update_ok; assumption|].
  split; [apply mcp_update_ok; assumption|].
  split; [apply mcp_update_ok; assumption|].
  split; [apply mcp_update_ok; assumption|].
  split; [exact Hy|].
  intros method name args Hn. apply mcp_read_agree; [apply agree_of_pointwise, Hy | exact Hn].
Qed.

Lemma update_distinct_commute_witness :
  "A" <> "B" /\ "A" <> "" /\ "B" <> "" /\ "completed" <> "" /\ "inProgress" <> "" /\
  exists sa sb sc sd,
    mcp (Some "tools/call") (Some "update_module_status") (mkArgs (Some "A") (Some "completed"))
      fx_chain_graph fx_chain_store = Some (CallReply (TextResult "Status updated"), sa) /\
    mcp (Some "tools/call") (Some "update_module_status") (mkArgs (Some "B") (Some "inProgress"))
      fx_chain_graph sa = Some (CallReply (TextResult "Status updated"), sb) /\
    mcp (Some "tools/call") (Some "update_module_status") (mkArgs (Some "B") (Some "inProgress"))
      fx_chain_graph fx_chain_store = Some (CallReply (TextResult "Status updated"), sc) /\
    mcp (Some "tools/call") (Some "update_module_status") (mkArgs (Some "A") (Some "completed"))
      fx_chain_graph sc = Some (CallReply (TextResult "Status updated"), sd) /\
    (forall y, get_db_status sb y = get_db_status sd y) /\
    (forall method name args, name <> Some "update_module_status" ->
       option_map fst (mcp method name args fx_chain_graph sb) =
       option_map fst (mcp method name args fx_chain_graph sd)).
Proof.
  assert (Hne : "A" <> "B") by discriminate.
  assert (Hm1 : "A" <> "") by discriminate.
  assert (Hm2 : "B" <> "") by discriminate.
  assert (H1 : "completed" <> "") by discriminate.
  assert (H2 : "inProgress" <> "") by discriminate.
  split; [exact Hne|]. split; [exact Hm1|]. split; [exact Hm2|].
  split; [exact H1|]. split; [exact H2|].
  exact (update_distinct_commute fx_chain_graph fx_chain_store "A" "B" "completed" "inProgress"
           Hne Hm1 Hm2 H1 H2).
Defined.

(* ================================================================= *)
(** * Proofs: diagnose_stall *)

(** A pending module in the list means not every module of it is completed. *)
Lemma pending_not_all_completed st m l :
  In m (filter (fun m => status_is st m "pending") l) ->
  forallb (fun m => status_is st m "completed") l = false.
Proof.
  intros Hm. apply filter_In in Hm. destruct Hm as [Hm Hp].
  apply not_true_iff_false. rewrite forallb_forall. intros H.
  specialize (H m Hm). apply status_is_spec in H, Hp. congruence.
Qed.

(** The [state] of every [diagnose_stall] report is the one
    [evaluate_project_state] gives, whichever branch builds the report:
    the no-module and no-pending branches return [state] itself, and the
    [blocked_by_cycle], [active] and [stalled] literals are what
    [evaluate_project_state] answers under those branches' conditions. *)
Theorem diagnose_state_is_evaluated (G : Graph) (st : Store) :
  d_state (diagnose_stall G st) = evaluate_project_state G st.
Proof.
  unfold diagnose_stall. cbv zeta.
  destruct (modules G) as [|m0 ms] eqn:Em; [reflexivity|].
  destruct (detect_cycles G) eqn:Ec.
  { unfold evaluate_project_state. rewrite Ec. reflexivity. }
  destruct (filter (fun m => status_is st m "pending") (m0 :: ms)) as [|p ps] eqn:Ep;
    [reflexivity|].
  assert (Hnc : forallb (fun m => status_is st m "completed") (m0 :: ms) = false).
  { apply (pending_not_all_completed st p). rewrite Ep. left. reflexivity. }
  unfold evaluate_project_state. rewrite Ec, Em, Hnc.
  destruct (compute_next_steps G st); reflexivity.
Qed.

Lemma blocked_info_all G st P :
  (forall m, In m P -> blockers_of G st m <> []) ->
  blocked_info G st P = map (fun m => (m, blockers_of G st m)) P.
Proof.
  induction P as [|m P IH]; intros H; [reflexivity|].
  unfold blocked_info. simpl. fold (blocked_info G st P).
  rewrite IH by (intros x Hx; apply H; right; exact Hx).
  destruct (blockers_of G st m) as [|b bs] eqn:Eb;
    [exfalso; exact (H m (or_introl eq_refl) Eb) | reflexivity].
Qed.

Lemma pending_not_ready_blocked G st m :
  In m (filter (fun m => status_is st m "pending") (modules G)) ->
  ~ In m (compute_next_steps G st) ->
  blockers_of G st m <> [].
Proof.
  intros Hp Hn. apply filter_In in Hp. destruct Hp as [Hm Hp].
  unfold blockers_of. intros Hb. apply map_eq_nil in Hb. apply Hn.
  unfold compute_next_steps. apply filter_In. split; [exact Hm|].
  rewrite Hp. simpl. apply forallb_forall. intros d Hd.
  destruct (status_is st d "completed") eqn:Ed; [reflexivity|].
  assert (Hin : In d (filter (fun d => negb (status_is st d "completed")) (deps G m)))
    by (apply filter_In; rewrite Ed; tauto).
  rewrite Hb in Hin. contradiction.
Qed.

(** A [stalled] report lists in [blocked] every pending module, in module
    order, each with a non-empty list of its dependencies that are not
    completed, with their status (["unset"] when there is no row). *)
Theorem diagnose_stalled_blocked (G : Graph) (st : Store)
  (Hs : d_state (diagnose_stall G st) = "stalled") :
  d_blocked (diagnose_stall G st) =
    map (fun m => (m, blockers_of G st m))
      (filter (fun m => status_is st m "pending") (modules G)) /\
  (forall m, In m (filter (fun m => status_is st m "pending") (modules G)) ->
     blockers_of G st m <> [] /\
     blockers_of G st m =
       map (fun d => (d, status_str st d))
         (filter (fun d => negb (status_is st d "completed")) (deps G m))).
Proof.
  revert Hs. unfold diagnose_stall. cbv zeta.
  destruct (modules G) as [|m0 ms] eqn:Em.
  { intros _. split; [reflexivity | intros m []]. }
  destruct (detect_cycles G) eqn:Ec; [intros H; discriminate H|].
  destruct (filter (fun m => status_is st m "pending") (m0 :: ms)) as [|p ps] eqn:Ep.
  { intros _. split; [reflexivity | intros m []]. }
  destruct (compute_next_steps G st) as [|r rs] eqn:En; [|intros H; discriminate H].
  intros _. rewrite <- Ep, <- Em.
  assert (Hb : forall m, In m (filter (fun m => status_is st m "pending") (modules G)) ->
                         blockers_of G st m <> []).
  { intros m Hm. apply pending_not_ready_blocked; [exact Hm|]. rewrite En. intros []. }
  split; [apply blocked_info_all; exact Hb|].
  intros m Hm. split; [exact (Hb m Hm) | reflexivity].
Qed.

Lemma diagnose_stalled_blocked_witness :
  d_state (diagnose_stall fx_stalled_graph fx_stalled_store) = "stalled" /\
  d_blocked (diagnose_stall fx_stalled_graph fx_stalled_store) =
    map (fun m => (m, blockers_of fx_stalled_graph fx_stalled_store m))
      (filter (fun m => status_is fx_stalled_store m "pending") (modules fx_stalled_graph)).
Proof.
  assert (Hs : d_state (diagnose_stall fx_stalled_graph fx_stalled_store) = "stalled")
    by (vm_compute; reflexivity).
  split; [exact Hs|].
  exact (proj1 (diagnose_stalled_blocked fx_stalled_graph fx_stalled_store Hs)).
Defined.

(** When modules are declared, there is no cycle and no module is pending,
    the report has no [ready_modules] and no blockers, says that the
    project is not completed (also when every module is completed, where its
    state is ["completed"]), and recommends setting unset statuses exactly
    when some declared module has no row. *)
Theorem diagnose_no_pending (G : Graph) (st : Store)
  (Hm : modules G <> []) (Hc : detect_cycles G = false)
  (Hp : forall m, In m (modules G) -> get_db_status st m <> Some "pending") :
  d_summary (diagnose_stall G st) =
    "No pending modules, but project is not completed. Likely unset statuses." /\
  d_ready (diagnose_stall G st) = None /\
  d_blocked (diagnose_stall G st) = [] /\
  (d_state (diagnose_stall G st) = "completed" <->
     forall m, In m (modules G) -> get_db_status st m = Some "completed") /\
  (In "Some module statuses are unset in DB. Set them to pending/completed/inProgress."
      (d_recs (diagnose_stall G st)) <->
   exists m, In m (modules G) /\ get_db_status st m = None) /\
  In "If you expected completion, ensure all modules are marked completed in DB."
    (d_recs (diagnose_stall G st)).
Proof.
  assert (Hnp : filter (fun m => status_is st m "pending") (modules G) = []).
  { destruct (filter _ (modules G)) as [|a l] eqn:E; [reflexivity|exfalso].
    assert (Ha : In a (filter (fun m => status_is st m "pending") (modules G)))
      by (rewrite E; left; reflexivity).
    apply filter_In in Ha. destruct Ha as [Ha Hpa]. apply status_is_spec in Hpa.
    exact (Hp a Ha Hpa). }
  unfold diagnose_stall. cbv zeta.
  destruct (modules G) as [|m0 ms] eqn:Em; [contradiction|].
  rewrite Hc, Hnp. cbn [d_summary d_ready d_blocked d_recs d_state].
  split; [reflexivity|]. split; [reflexivity|]. split; [reflexivity|]. split.
  - unfold evaluate_project_state. rewrite Hc, Em.
    rewrite <- Em. split.
    + intros H. destruct (forallb (fun m => status_is st m "completed") (modules G)) eqn:Ef.
      * intros m Hmm. rewrite forallb_forall in Ef.
        apply status_is_spec, Ef, Hmm.
      * destruct (compute_next_steps G st); discriminate H.
    + intros H. replace (forallb (fun m => status_is st m "completed") (modules G)) with true;
        [reflexivity|].
      symmetry. apply forallb_forall. intros m Hmm. apply status_is_spec, H, Hmm.
  - rewrite <- Em. split; [split|].
    + destruct (filter (fun m => match get_db_status st m with None => true | Some _ => false end)
                  (modules G)) as [|u us] eqn:Eu.
      * simpl. intros [H|[]]. discriminate H.
      * intros _. exists u.
        assert (Hu : In u (filter (fun m => match get_db_status st m with
                                              | None => true | Some _ => false end)
                             (modules G))) by (rewrite Eu; left; reflexivity).
        apply filter_In in Hu. destruct Hu as [Hu Hn]. split; [exact Hu|].
        destruct (get_db_status st u); [discriminate Hn | reflexivity].
    + intros [u [Hu Hn]].
      assert (Hf : In u (filter (fun m => match get_db_status st m with
                                          | None => true | Some _ => false end)
                           (modules G))) by (apply filter_In; rewrite Hn; tauto).
      destruct (filter _ (modules G)); [contradiction | left; reflexivity].
    + apply in_or_app. right. left. reflexivity.
Qed.

Lemma diagnose_no_pending_witness :
  modules fx_chain_graph <> [] /\ detect_cycles fx_chain_graph = false /\
  (forall m, In m (modules fx_chain_graph) -> get_db_status fx_nopending_store m <> Some "pending") /\
  (In "Some module statuses are unset in DB. Set them to pending/completed/inProgress."
      (d_recs (diagnose_stall fx_chain_graph fx_nopending_store)) <->
   exists m, In m (modules fx_chain_graph) /\ get_db_status fx_nopending_store m = None).
Proof.
  assert (Hm : modules fx_chain_graph <> []) by discriminate.
  assert (Hc : detect_cycles fx_chain_graph = false) by (vm_compute; reflexivity).
  assert (Hp : forall m, In m (modules fx_chain_graph) ->
                         get_db_status fx_nopending_store m <> Some "pending").
  { simpl. intros m [<-|[<-|[<-|[]]]]; vm_compute; discriminate. }
  split; [exact Hm|]. split; [exact Hc|]. split; [exact Hp|].
  exact (proj1 (proj2 (proj2 (proj2 (proj2
           (diagnose_no_pending fx_chain_graph fx_nopending_store Hm Hc Hp)))))).
Defined.

(* ================================================================= *)
(** * Proofs: sorting and counting *)

Lemma leb_flip x y : String.leb x y = false -> String.leb y x = true.
Proof. intros H. destruct (String.leb_total x y) as [H'|H']; congruence. Qed.

Lemma insert_sorted_perm x l : Permutation (insert_sorted x l) (x :: l).
Proof.
  induction l as [|y l IH]; simpl; [reflexivity|].
  destruct (String.leb x y); [reflexivity|].
  transitivity (y :: x :: l); [constructor; exact IH | constructor].
Qed.

Lemma sort_strings_perm l : Permutation (sort_strings l) l.
Proof.
  induction l as [|x l IH]; simpl; [reflexivity|].
  rewrite insert_sorted_perm. constructor. exact IH.
Qed.

Lemma insert_sorted_sorted x l :
  Sorted (fun a b => String.leb a b = true) l ->
  Sorted (fun a b => String.leb a b = true) (insert_sorted x l).
Proof.
  induction l as [|y l IH]; intros Hs; simpl.
  - repeat constructor.
  - destruct (String.leb x y) eqn:Exy.
    + constructor; [exact Hs | constructor; exact Exy].
    + apply Sorted_inv in Hs. destruct Hs as [Hs Hh].
      constructor; [apply IH; exact Hs|].
      destruct l as [|z l]; simpl.
      * constructor. apply leb_flip. exact Exy.
      * apply HdRel_inv in Hh. destruct (String.leb x z); constructor;
          [apply leb_flip; exact Exy | exact Hh].
Qed.

Lemma sort_strings_sorted l : Sorted (fun a b => String.leb a b = true) (sort_strings l).
Proof.
  induction l as [|x l IH]; simpl; [constructor|].
  apply insert_sorted_sorted. exact IH.
Qed.

(** [get_module_statuses] lists each declared module once per declaration,
    sorted by module id, with its stored status or ["unset"] when it has no
    row. *)
Theorem snapshot_sorted_permutation (G : Graph) (st : Store) :
  Sorted (fun a b => String.leb a b = true) (map fst (get_status_snapshot G st)) /\
  Permutation (map fst (get_status_snapshot G st)) (modules G) /\
  (forall m s, In (m, s) (get_status_snapshot G st) <->
     In m (modules G) /\
     s = match get_db_status st m with Some s' => s' | None => "unset" end).
Proof.
  assert (Hf : map fst (get_status_snapshot G st) = sort_strings (modules G)).
  { unfold get_status_snapshot. rewrite map_map. apply map_id. }
  rewrite Hf. split; [apply sort_strings_sorted|]. split; [apply sort_strings_perm|].
  intros m s. unfold get_status_snapshot. rewrite in_map_iff. split.
  - intros [x [Hx Hin]]. injection Hx as <- <-. split; [apply sort_strings_In; exact Hin|].
    reflexivity.
  - intros [Hin ->]. exists m. split; [reflexivity | apply sort_strings_In; exact Hin].
Qed.

Lemma insert_desc_perm x l : Permutation (insert_desc x l) (x :: l).
Proof.
  induction l as [|y l IH]; simpl; [reflexivity|].
  destruct (Nat.ltb (snd y) (snd x)); [reflexivity|].
  transitivity (y :: x :: l); [constructor; exact IH | constructor].
Qed.

Lemma insert_desc_sorted x l :
  Sorted (fun a b => snd b <= snd a) l -> Sorted (fun a b => snd b <= snd a) (insert_desc x l).
Proof.
  induction l as [|y l IH]; intros Hs; simpl.
  - repeat constructor.
  - destruct (Nat.ltb (snd y) (snd x)) eqn:E.
    + apply Nat.ltb_lt in E. constructor; [exact Hs | constructor; lia].
    + apply Nat.ltb_ge in E. apply Sorted_inv in Hs. destruct Hs as [Hs Hh].
      constructor; [apply IH; exact Hs|].
      destruct l as [|z l]; simpl.
      * constructor. exact E.
      * apply HdRel_inv in Hh. destruct (Nat.ltb (snd z) (snd x)); constructor; assumption.
Qed.

Lemma insert_desc_filter n x l :
  Sorted (fun a b => snd b <= snd a) l ->
  filter (fun e => Nat.eqb (snd e) n) (insert_desc x l) =
  filter (fun e => Nat.eqb (snd e) n) l ++
    (if Nat.eqb (snd x) n then [x] else []).
Proof.
  induction l as [|y l IH]; intros Hs; simpl.
  - destruct (Nat.eqb (snd x) n); reflexivity.
  - apply Sorted_StronglySorted in Hs; [|intros a b c; lia].
    destruct (Nat.ltb (snd y) (snd x)) eqn:E.
    + apply Nat.ltb_lt in E. simpl.
      destruct (Nat.eqb (snd x) n) eqn:Ex.
      * apply Nat.eqb_eq in Ex.
        assert (Hy : Nat.eqb (snd y) n = false) by (apply Nat.eqb_neq; lia).
        assert (Hl : filter (fun e => Nat.eqb (snd e) n) l = []).
        { apply StronglySorted_inv in Hs. destruct Hs as [_ Hall].
          rewrite Forall_forall in Hall.
          destruct (filter _ l) as [|z zs] eqn:Ez; [reflexivity|exfalso].
          assert (Hz : In z (filter (fun e => Nat.eqb (snd e) n) l)) by (rewrite Ez; left; reflexivity).
          apply filter_In in Hz. destruct Hz as [Hz Hzn]. apply Nat.eqb_eq in Hzn.
          specialize (Hall z Hz). lia. }
        rewrite Hy, Hl. reflexivity.
      * rewrite app_nil_r. reflexivity.
    + apply StronglySorted_Sorted in Hs. apply Sorted_inv in Hs. destruct Hs as [Hs _].
      simpl. rewrite (IH Hs). destruct (Nat.eqb (snd y) n); reflexivity.
Qed.

Lemma sort_desc_fold l acc :
  Sorted (fun a b => snd b <= snd a) acc ->
  Sorted (fun a b => snd b <= snd a) (fold_left (fun acc x => insert_desc x acc) l acc) /\
  Permutation (fold_left (fun acc x => insert_desc x acc) l acc) (acc ++ l) /\
  (forall n, filter (fun e => Nat.eqb (snd e) n) (fold_left (fun acc x => insert_desc x acc) l acc) =
             filter (fun e => Nat.eqb (snd e) n) acc ++ filter (fun e => Nat.eqb (snd e) n) l).
Proof.
  revert acc. induction l as [|x l IH]; intros acc Hs; simpl.
  - split; [exact Hs|]. split; [rewrite app_nil_r; reflexivity|].
    intros n. simpl. rewrite app_nil_r. reflexivity.
  - destruct (IH (insert_desc x acc) (insert_desc_sorted x acc Hs)) as [H1 [H2 H3]].
    split; [exact H1|]. split.
    + rewrite H2, insert_desc_perm. simpl. apply Permutation_middle.
    + intros n. rewrite H3, (insert_desc_filter n x acc Hs), <- app_assoc.
      destruct (Nat.eqb (snd x) n); reflexivity.
Qed.

(** The ranking of blockers is a reordering of the counted blockers by
    non-increasing count; blockers with the same count keep their first-seen
    order (the sort is stable). *)
Theorem sort_desc_stable_ranking (l : list ((string * string) * nat)) :
  Permutation (sort_desc l) l /\
  Sorted (fun a b => snd b <= snd a) (sort_desc l) /\
  (forall n, filter (fun e => Nat.eqb (snd e) n) (sort_desc l) =
             filter (fun e => Nat.eqb (snd e) n) l).
Proof.
  destruct (sort_desc_fold l [] (Sorted_nil _)) as [H1 [H2 H3]].
  unfold sort_desc. split; [exact H2|]. split; [exact H1|]. exact H3.
Qed.

Lemma key_eqb_spec a b : key_eqb a b = true <-> a = b.
Proof.
  destruct a as [a1 a2], b as [b1 b2]. unfold key_eqb. simpl.
  rewrite andb_true_iff, !String.eqb_eq. split; [intros [-> ->]; reflexivity|].
  intros H. injection H as -> ->. tauto.
Qed.

Lemma blocker_counts_flat (blocked : list (string * list (string * string)))
    (c : list ((string * string) * nat)) :
  fold_left (fun c item => fold_left (fun c b => bump b c) (snd item) c) blocked c =
  fold_left (fun c b => bump b c) (flat_map snd blocked) c.
Proof.
  revert c. induction blocked as [|item blocked IH]; intros c; simpl; [reflexivity|].
  rewrite IH, fold_left_app. reflexivity.
Qed.

Lemma bump_keys b c k : In k (map fst (bump b c)) <-> k = b \/ In k (map fst c).
Proof.
  induction c as [|[k' n'] c IH]; simpl; [split; intros [H|[]]; left; congruence|].
  destruct (key_eqb k' b) eqn:E; simpl.
  - apply key_eqb_spec in E. subst k'.
    split; [intros [H|H]; [left; congruence | right; right; exact H]
           | intros [H|[H|H]]; [left; congruence | left; exact H | right; exact H]].
  - rewrite IH. tauto.
Qed.

Lemma bump_nodup b c : NoDup (map fst c) -> NoDup (map fst (bump b c)).
Proof.
  induction c as [|[k' n'] c IH]; simpl; intros Hn.
  - repeat constructor. intros [].
  - inversion Hn as [|? ? Hk Hc]; subst.
    destruct (key_eqb k' b) eqn:E; simpl; [exact Hn|].
    constructor; [|apply IH; exact Hc].
    rewrite bump_keys. intros [->|H]; [|contradiction].
    rewrite (proj2 (key_eqb_spec b b) eq_refl) in E. discriminate E.
Qed.

Lemma bump_In_inv b c k n : NoDup (map fst c) -> In (k, n) (bump b c) ->
  (k <> b /\ In (k, n) c) \/
  (k = b /\ ((~ In b (map fst c) /\ n = 1) \/ exists n0, In (b, n0) c /\ n = S n0)).
Proof.
  induction c as [|[k' n'] c IH]; simpl; intros Hn Hin.
  - destruct Hin as [Hin|[]]. injection Hin as <- <-. right. tauto.
  - inversion Hn as [|? ? Hk Hc]; subst.
    destruct (key_eqb k' b) eqn:E.
    + apply key_eqb_spec in E. subst k'. destruct Hin as [Hin|Hin].
      * injection Hin as <- <-. right. split; [reflexivity|]. right. exists n'. tauto.
      * left. split; [|right; exact Hin].
        intros ->. apply Hk. apply (in_map fst) in Hin. exact Hin.
    + assert (Hkb : k' <> b) by (intros ->; rewrite (proj2 (key_eqb_spec b b) eq_refl) in E;
                                  discriminate E).
      destruct Hin as [Hin|Hin].
      * injection Hin as -> ->. left. tauto.
      * destruct (IH Hc Hin) as [[H1 H2]|[H1 [[H2 H3]|[n0 [H2 H3]]]]].
        -- left. tauto.
        -- right. split; [exact H1|]. left. split; [|exact H3]. intros [H|H]; [|contradiction].
           apply Hkb. exact H.
        -- right. split; [exact H1|]. right. exists n0. tauto.
Qed.

Lemma count_app k l b :
  length (filter (key_eqb k) (l ++ [b])) =
  length (filter (key_eqb k) l) + (if key_eqb k b then 1 else 0).
Proof. rewrite filter_app, length_app. simpl. destruct (key_eqb k b); reflexivity. Qed.

Lemma count_absent k l : ~ In k l -> length (filter (key_eqb k) l) = 0.
Proof.
  intros H. apply length_zero_iff_nil. destruct (filter _ l) as [|x xs] eqn:E; [reflexivity|].
  exfalso. assert (Hx : In x (filter (key_eqb k) l)) by (rewrite E; left; reflexivity).
  apply filter_In in Hx. destruct Hx as [Hx Hk]. apply key_eqb_spec in Hk. subst. contradiction.
Qed.

Lemma bump_fold_inv L : forall c seen,
  NoDup (map fst c) ->
  (forall k, In k (map fst c) <-> In k seen) ->
  (forall k n, In (k, n) c -> n = length (filter (key_eqb k) seen)) ->
  let c' := fold_left (fun c b => bump b c) L c in
  NoDup (map fst c') /\
  (forall k, In k (map fst c') <-> In k (seen ++ L)) /\
  (forall k n, In (k, n) c' -> n = length (filter (key_eqb k) (seen ++ L))).
Proof.
  induction L as [|b L IH]; intros c seen H1 H2 H3; simpl.
  - rewrite app_nil_r. tauto.
  - replace (seen ++ b :: L) with ((seen ++ [b]) ++ L) by (rewrite <- app_assoc; reflexivity).
    apply IH.
    + apply bump_nodup. exact H1.
    + intros k. rewrite bump_keys, in_app_iff, H2. simpl.
      split; [intros [H|H]; [right; left; congruence | left; exact H]
             | intros [H|[H|[]]]; [right; exact H | left; congruence]].
    + intros k n Hin. rewrite count_app.
      destruct (bump_In_inv b c k n H1 Hin) as [[Hkb Hc]|[-> [[Hb Hn]|[n0 [Hb Hn]]]]].
      * rewrite (H3 k n Hc). destruct (key_eqb k b) eqn:E; [|lia].
        apply key_eqb_spec in E. contradiction.
      * rewrite H2 in Hb. rewrite count_absent by exact Hb.
        rewrite (proj2 (key_eqb_spec b b) eq_refl). lia.
      * rewrite Hn, (H3 b n0 Hb), (proj2 (key_eqb_spec b b) eq_refl). lia.
Qed.

(** [blocker_counts] has one entry per distinct (dependency, status) pair
    occurring in the blocker lists, and the entry's count is the number of
    times the pair occurs there. *)
Theorem blocker_counts_exact (blocked : list (string * list (string * string))) :
  NoDup (map fst (blocker_counts blocked)) /\
  (forall k, In k (map fst (blocker_counts blocked)) <-> In k (flat_map snd blocked)) /\
  (forall k n, In (k, n) (blocker_counts blocked) ->
     n = length (filter (key_eqb k) (flat_map snd blocked))).
Proof.
  unfold blocker_counts. rewrite blocker_counts_flat.
  apply (bump_fold_inv (flat_map snd blocked) [] []).
  - constructor.
  - simpl. tauto.
  - intros k n [].
Qed.

(* ================================================================= *)
(** * Proofs: the critical path's shape *)

(** When the operational subgraph is acyclic, the critical path visits
    distinct modules, all of them not completed, and its reported length is
    its node count, at most the number of modules that are not completed. *)
Theorem critical_path_distinct_active (G : Graph) (st : Store) (Hac : cp_acyclic G st) :
  exists r, compute_operational_critical_path G st = Some r /\
    NoDup (snd r) /\ incl (snd r) (active_modules G st) /\
    fst r = length (snd r) /\ fst r <= length (active_modules G st).
Proof.
  destruct (cp_terminates G st Hac) as [r E]. exists r. split; [exact E|].
  destruct (cp_run_spec G st _ r E) as [[_ ->] | (pre & n0 & post & HD & Hg & _ & _)].
  - simpl. split; [constructor|]. split; [intros x []|]. split; reflexivity || lia.
  - destruct Hg as ((rest & Hp & Hl) & Hlen & _).
    assert (Hn0 : In n0 (active_modules G st))
      by (rewrite HD; apply in_or_app; right; left; reflexivity).
    assert (Hnd : NoDup (snd r)) by (rewrite Hp; exact (linked_nodup G st Hac rest n0 Hl)).
    assert (Hinc : incl (snd r) (active_modules G st)).
    { rewrite Hp. intros z [<-|Hz]; [exact Hn0 | exact (linked_active G st rest n0 z Hl Hz)]. }
    split; [exact Hnd|]. split; [exact Hinc|]. split; [exact Hlen|].
    rewrite Hlen. exact (NoDup_incl_length Hnd Hinc).
Qed.

Lemma critical_path_distinct_active_witness :
  cp_acyclic fx_chain_graph fx_chain_store /\
  exists r, compute_operational_critical_path fx_chain_graph fx_chain_store = Some r /\
    NoDup (snd r) /\ incl (snd r) (active_modules fx_chain_graph fx_chain_store) /\
    fst r = length (snd r) /\ fst r <= length (active_modules fx_chain_graph fx_chain_store).
Proof.
  split; [exact fx_chain_acyclic|].
  exact (critical_path_distinct_active fx_chain_graph fx_chain_store fx_chain_acyclic).
Defined.
